(** * oelint-adv: grouping, execution, fix and report pipeline

    A shallow embedding of [oelint_adv/__main__.py]: the Group Builder
    [group_files] and the orchestration in [main], followed by the
    properties of the specification that concern them.

    Python values are modelled as follows.
    - [str] is [string] and a character is an [ascii]; file names are
      taken to be made of such characters.
    - The dictionary [res] of [group_files] keeps its keys in insertion
      order and is iterated in that order, so it is an association list
      [list (string * gset string)]; its values are Python sets, modelled
      by [gset string], whose iteration order ([elements]) is arbitrary.
    - [re.match] is modelled on the fragment of the pattern syntax that
      ordinary file names reach; a pattern outside it makes [group_files]
      answer [None].
    - Exceptions are values of [exn]; code that may raise returns in a
      state and exception monad over the file system, a flat map from
      paths to contents, and the list of events of the run.
    - The stash, the rules and the rule loader are not part of this
      program: they are the fields of the class [Collaborators]. *)

From Stdlib Require Import ZArith Ascii String List.
From stdpp Require Import base option list sorting gmap strings pretty.

Local Open Scope string_scope.
Local Open Scope list_scope.
Local Open Scope nat_scope.

(** ** Python string operations used by the program *)

Module PyStr.
Local Open Scope Z_scope.

(** [s.rfind(c)] for a one-character [c]: the highest index at which
    [c] occurs, or [-1]. [i] is the index of the head of [s] and
    [last] the best index seen so far. *)
Fixpoint rfind_from (c : ascii) (s : string) (i last : Z) : Z :=
  match s with
  | EmptyString => last
  | String a r => rfind_from c r (i + 1) (if Ascii.eqb a c then i else last)
  end.

Definition rfind (c : ascii) (s : string) : Z := rfind_from c s 0 (-1).

(** [s[i:]] and [s[:i]] for an index [0 <= i]. *)
Fixpoint drop_str (n : nat) (s : string) : string :=
  match n, s with
  | O, _ => s
  | S n', String _ r => drop_str n' r
  | S _, EmptyString => EmptyString
  end.

Fixpoint take_str (n : nat) (s : string) : string :=
  match n, s with
  | S n', String a r => String a (take_str n' r)
  | _, _ => EmptyString
  end.

Definition slice_from (i : Z) (s : string) : string := drop_str (Z.to_nat i) s.
Definition slice_to (i : Z) (s : string) : string := take_str (Z.to_nat i) s.

(** [s[i:j]] for [0 <= i]. *)
Definition slice (i j : Z) (s : string) : string :=
  take_str (Z.to_nat (j - i)) (drop_str (Z.to_nat i) s).

(** Whether some character of [s] differs from [c]. *)
Fixpoint has_other (c : ascii) (s : string) : bool :=
  match s with
  | EmptyString => false
  | String a r => negb (Ascii.eqb a c) || has_other c r
  end.

(** [s.split(c)] for a one-character separator: never empty. *)
Fixpoint split (c : ascii) (s : string) : list string :=
  match s with
  | EmptyString => [EmptyString]
  | String a r =>
      if Ascii.eqb a c then EmptyString :: split c r
      else match split c r with
           | h :: t => String a h :: t
           | [] => [String a EmptyString]
           end
  end.

(** [l[:-1]]. *)
Definition drop_last (l : list string) : list string := removelast l.

(** [sep.join(l)]. *)
Definition join (sep : string) (l : list string) : string := String.concat sep l.

(** [s.replace(c, by)] for a one-character [c]. *)
Fixpoint replace (c : ascii) (by_ : string) (s : string) : string :=
  match s with
  | EmptyString => EmptyString
  | String a r =>
      if Ascii.eqb a c then by_ +:+ replace c by_ r
      else String a (replace c by_ r)
  end.

(** [s.endswith(suffix)]. *)
Definition endswith (s suffix : string) : bool :=
  let n := String.length s in
  let m := String.length suffix in
  (m <=? n)%nat && String.eqb (drop_str (n - m) s) suffix.

(** [c in s]. *)
Fixpoint contains (c : ascii) (s : string) : bool :=
  match s with
  | EmptyString => false
  | String a r => Ascii.eqb a c || contains c r
  end.

End PyStr.

(** ** [os.path] (POSIX flavour) *)

Module OsPath.
Import PyStr.
Local Open Scope Z_scope.

(** [posixpath.basename]: [i = p.rfind('/') + 1; return p[i:]]. *)
Definition basename (p : string) : string :=
  let i := rfind "/" p + 1 in
  slice_from i p.

(** [posixpath.splitext], that is [genericpath._splitext(p, '/', None, '.')]:
    the extension starts at the last dot provided that dot comes after
    the last separator and is preceded, within the last component, by a
    character that is not a dot. *)
Definition splitext (p : string) : string * string :=
  let sepIndex := rfind "/" p in
  let dotIndex := rfind "." p in
  if (sepIndex <? dotIndex)
     && has_other "." (slice (sepIndex + 1) dotIndex p)
  then (slice_to dotIndex p, slice_from dotIndex p)
  else (p, EmptyString).

End OsPath.

(** ** The fragment of [re] reached by [group_files]

    [group_files] builds its pattern from a file name, so any character
    of the name is read as regular-expression syntax. The embedding
    covers ordinary characters, [.], and the quantifiers [*], [+] and [?]
    directly after one of these. A pattern using anything else
    (a character among [^ $ { } [ ] \ | ( )], a quantifier with nothing
    to repeat or following another quantifier) is outside the fragment:
    [compile] answers [None] for it, which also stands for the
    [re.error] Python raises on some of these patterns. *)

Module Re.

Inductive atom := Lit (c : ascii) | Dot.
Inductive quant := One | Star | Plus | Opt.
Definition regex := list (atom * quant).

Definition is_special (c : ascii) : bool :=
  PyStr.contains c "^$*+?{}[]\|()".

Definition parse_atom (c : ascii) : option atom :=
  if Ascii.eqb c "." then Some Dot
  else if is_special c then None
  else Some (Lit c).

Definition parse_quant (c : ascii) : option quant :=
  if Ascii.eqb c "*" then Some Star
  else if Ascii.eqb c "+" then Some Plus
  else if Ascii.eqb c "?" then Some Opt
  else None.

Fixpoint compile (p : string) : option regex :=
  match p with
  | EmptyString => Some []
  | String c r =>
      match parse_atom c with
      | None => None
      | Some a =>
          match r with
          | EmptyString => Some [(a, One)]
          | String q r' =>
              match parse_quant q with
              | Some k => option_map (cons (a, k)) (compile r')
              | None => option_map (cons (a, One)) (compile r)
              end
          end
      end
  end.

(** [.] matches any character except a newline. *)
Definition atom_matches (a : atom) (c : ascii) : bool :=
  match a with
  | Lit d => Ascii.eqb c d
  | Dot => negb (Ascii.eqb c "010")
  end.

(** Whether the regex matches a prefix of [s]: [re.match] anchors at the
    start of the string only. *)
Fixpoint matches (p : regex) (s : string) {struct p} : bool :=
  match p with
  | [] => true
  | (a, k) :: p' =>
      let star :=
        fix star (s : string) : bool :=
          matches p' s ||
          match s with
          | String c s' => atom_matches a c && star s'
          | EmptyString => false
          end in
      match k with
      | One =>
          match s with
          | String c s' => atom_matches a c && matches p' s'
          | EmptyString => false
          end
      | Opt =>
          matches p' s ||
          match s with
          | String c s' => atom_matches a c && matches p' s'
          | EmptyString => false
          end
      | Star => star s
      | Plus =>
          match s with
          | String c s' => atom_matches a c && star s'
          | EmptyString => false
          end
      end
  end.

(** Truth value of [re.match(pattern, s)]; [None] when the pattern is
    outside the fragment. *)
Definition re_match (pattern s : string) : option bool :=
  match compile pattern with
  | Some r => Some (matches r s)
  | None => None
  end.

End Re.

(** ** The Group Builder: [group_files] *)

Module Grouping.
Import PyStr OsPath Re.

(** The dictionary [res]: keys in insertion order, each bound to a set
    of file paths. *)
Abbreviation dict := (list (string * gset string)).

(** ["_".join(os.path.basename(_filename).split("_")[:-1]).replace("%", "")] *)
Definition filename_key (_filename : string) : string :=
  replace "%" "" (join "_" (drop_last (split "_" (basename _filename)))).

(** [if not key in res: res[key] = set()] followed by [res[key].add(f)]:
    a new key goes to the end of the dictionary. *)
Fixpoint dict_add (key f : string) (res : dict) : dict :=
  match res with
  | [] => [(key, {[ f ]})]
  | (k, v) :: rest =>
      if decide (k = key) then (k, v ∪ {[ f ]}) :: rest
      else (k, v) :: dict_add key f rest
  end.

(** First round, lines 74-81: the [.bb] files. *)
Definition pass1_step (res : dict) (f : string) : dict :=
  let '(_filename, _ext) := splitext f in
  if decide (_ext = ".bb") then dict_add (filename_key _filename) f res
  else res.

Definition pass1 (files : list string) : dict := fold_left pass1_step files [].

(** [".*/" + os.path.basename(_filename).replace("%", ".*")] *)
Definition needle_of (_filename : string) : string :=
  ".*/" +:+ replace "%" ".*" (basename _filename).

(** [any(re.match(_needle, x) for x in v)], in the iteration order of
    [v]; [None] when [re.match] does not answer. *)
Fixpoint any_match (_needle : string) (xs : list string) : option bool :=
  match xs with
  | [] => Some false
  | x :: xs' =>
      match re_match _needle x with
      | None => None
      | Some true => Some true
      | Some false => any_match _needle xs'
      end
  end.

(** Outcome of the loop [for k, v in res.items()] of lines 89-94. *)
Inductive search :=
| Failed                  (* [re.match] raised *)
| NoMatch                 (* the loop ended with [_match] still false *)
| Matched (res' : dict).  (* [v.add(f)], [_match = True], [break] *)

Fixpoint add_to_first_match (_needle f : string) (res : dict) : search :=
  match res with
  | [] => NoMatch
  | (k, v) :: rest =>
      match any_match _needle (elements v) with
      | None => Failed
      | Some true => Matched ((k, v ∪ {[ f ]}) :: rest)
      | Some false =>
          match add_to_first_match _needle f rest with
          | Matched rest' => Matched ((k, v) :: rest')
          | other => other
          end
      end
  end.

(** Second round, lines 84-99: the [.bbappend] files. *)
Definition pass2_step (res : dict) (f : string) : option dict :=
  let '(_filename, _ext) := splitext f in
  if decide (_ext = ".bbappend") then
    match add_to_first_match (needle_of _filename) f res with
    | Failed => None
    | Matched res' => Some res'
    | NoMatch => Some (dict_add (filename_key _filename) f res)
    end
  else Some res.

Fixpoint pass2 (files : list string) (res : dict) : option dict :=
  match files with
  | [] => Some res
  | f :: rest =>
      match pass2_step res f with
      | None => None
      | Some res' => pass2 rest res'
      end
  end.

(** The two components of [os.path.splitext(f)], the two recognised
    extensions, and the key and pattern computed from a path. *)
Definition root (f : string) : string := (splitext f).1.
Definition ext (f : string) : string := (splitext f).2.
Definition is_base (f : string) : bool := bool_decide (ext f = ".bb").
Definition is_append (f : string) : bool := bool_decide (ext f = ".bbappend").
Definition key_of (f : string) : string := filename_key (root f).
Definition needle (f : string) : string := needle_of (root f).

(** [x] is in the set bound at position [i] of the dictionary. *)
Definition member (res : dict) (i : nat) (x : string) : Prop :=
  ∃ kv, res !! i = Some kv ∧ x ∈ kv.2.

(** The two ways a round puts [f] into the dictionary: into the set at
    an existing position, or into a new set bound to a new key at the
    end. The index is the position [f] goes to. *)
Inductive grows (f : string) (res : dict) : nat → dict → Prop :=
| grows_at i k v :
    res !! i = Some (k, v) →
    grows f res i (<[i := (k, v ∪ {[ f ]})]> res)
| grows_new k :
    k ∉ res.*1 →
    grows f res (length res) (res ++ [(k, {[ f ]})])%list.

(** [files.index(x)]: the position of the first occurrence of [x]. For
    an [x] that does not occur Python raises [ValueError]; the function
    then answers [length files]. Lemma [member_in_files] shows that
    [group_files] never asks for such an [x]. *)
Fixpoint index (files : list string) (x : string) : nat :=
  match files with
  | [] => O
  | y :: rest => if decide (y = x) then O else S (index rest x)
  end.

Definition index_le (files : list string) : relation string :=
  λ a b, (index files a <= index files b)%nat.

Global Instance index_le_dec files : RelDecision (index_le files).
Proof. intros a b. unfold index_le. apply _. Defined.

(** [sorted(v, key=lambda index: files.index(index))] *)
Definition sorted_by_index (files : list string) (v : gset string) : list string :=
  merge_sort (index_le files) (elements v).

(** [group_files(files)]: the groups, in the order of [res.values()];
    [None] when a pattern is outside the modelled fragment of [re]. *)
Definition group_files (files : list string) : option (list (list string)) :=
  match pass2 files (pass1 files) with
  | None => None
  | Some res => Some (map (λ kv, sorted_by_index files kv.2) res)
  end.

(** *** Notions the properties of [group_files] are stated with *)

(** After the first round has gone through [done]. *)
Record round1 (done : list string) (res : dict) : Prop := {
  r1_nodup : NoDup res.*1;
  r1_mem : ∀ i x, member res i x →
    x ∈ done ∧ is_base x = true ∧ res.*1 !! i = Some (key_of x);
  r1_in : ∀ x, x ∈ done → is_base x = true → ∃ i, member res i x;
  r1_first : ∀ i, i < length res → ∃ x, member res i x;
}.

(** While the second round goes through the list [files], having done
    [done]; [n1] is the number of keys the first round made. *)
Record round2 (files : list string) (n1 : nat) (done : list string) (res : dict) : Prop := {
  r2_nodup : NoDup res.*1;
  r2_mem : ∀ i x, member res i x →
    (is_base x = true ∧ x ∈ files ∧ res.*1 !! i = Some (key_of x) ∧ i < n1)
    ∨ (is_append x = true ∧ x ∈ done);
  r2_base : ∀ x, x ∈ files → is_base x = true → ∃ i, member res i x;
  r2_app : ∀ x, x ∈ done → is_append x = true → ∃ i, member res i x;
  r2_first : ∀ i, i < n1 → ∃ x, member res i x ∧ is_base x = true;
}.

(** No append file sits at two positions. *)
Definition placed_once (res : dict) : Prop :=
  ∀ i j x, is_append x = true → member res i x → member res j x → i = j.

Definition in_group (gs : list (list string)) (i : nat) (x : string) : Prop :=
  ∃ g, gs !! i = Some g ∧ x ∈ g.

Definition recognised (f : string) : bool := is_base f || is_append f.

(** The base name has no underscore. *)
Definition plain_name (f : string) : bool :=
  negb (contains "_" (basename (root f))).

Definition unmatched (f x : string) : bool :=
  bool_decide (re_match (needle f) x = Some false).

(** The occurrence of the append file [f] between [l1] and [l2] takes the
    fallback of lines 95-99: its pattern matches none of the files that
    are in a group by then, the base files of the list and the append
    files listed before it. *)
Definition falls_through (l1 : list string) (f : string) (l2 : list string) : bool :=
  is_append f
  && forallb (λ x, negb (is_base x) || unmatched f x) (l1 ++ f :: l2)
  && forallb (λ x, negb (is_append x) || unmatched f x) l1.

(** The files that are put under the key derived from their own name. *)
Inductive under_own_key (files : list string) (f : string) : Prop :=
| own_key_base :
    f ∈ files → is_base f = true → under_own_key files f
| own_key_fallback l1 l2 :
    files = l1 ++ f :: l2 → falls_through l1 f l2 = true → under_own_key files f.

Definition matchesb (f x : string) : bool :=
  bool_decide (re_match (needle f) x = Some true).

Definition compiles (n : string) : bool :=
  match compile n with Some _ => true | None => false end.

(** The key of the group a file is bound for when the patterns are
    unambiguous: its own key, or for an append file the key of the
    first base file its pattern matches. *)
Definition target (files : list string) (f : string) : string :=
  if is_base f then key_of f
  else match find (λ b, is_base b && matchesb f b) files with
       | Some b => key_of b
       | None => key_of f
       end.

(** Every append file has a pattern of the fragment, and the base and
    append files of the list that the pattern matches are all bound for
    one group, the one the append file itself is bound for. Files with
    another extension do not count, whatever matches them. *)
Definition unambiguous (files : list string) : bool :=
  forallb (λ f,
    negb (is_append f)
    || (compiles (needle f)
        && forallb (λ x, negb (recognised x)
                         || negb (matchesb f x)
                         || bool_decide (target files x = target files f))
                   files))
    files.

(** Each group lists its files in the order of the input. *)
Definition in_input_order (files : list string) (gs : list (list string)) : Prop :=
  ∀ g, g ∈ gs → ∀ i j x y,
    g !! i = Some x → g !! j = Some y → i < j → index files x < index files y.

Definition on_target (files : list string) (res : dict) : Prop :=
  ∀ i x, member res i x → res.*1 !! i = Some (target files x).

Definition nonempty (res : dict) : Prop :=
  ∀ i, i < length res → ∃ x, member res i x.

(** *** Input lists used as examples *)

Definition recipe_and_append : list string :=
  ["d/a_1.0.bb"; "d/a_1.0.bbappend"; "d/b_2.0.bb"].

Definition rc_first : list string :=
  ["r/foo_1_rc.bb"; "r/foo_1.bb"; "r/foo_1.bbappend"].
Definition rc_second : list string :=
  ["r/foo_1.bb"; "r/foo_1_rc.bb"; "r/foo_1.bbappend"].

Definition append_twice : list string :=
  ["d/a_1.bb"; "d/x_1.bbappend"; "q/x_1/a_1.bbappend"; "d/x_1.bbappend"].

Definition plain_names : list string :=
  ["d/zlib.bb"; "e/busybox.bb"; "f/linux.bbappend"].

Definition two_layers : list string :=
  ["d/a_1.bb"; "l1/a_1.bbappend"; "d/a_1.inc"; "l2/a_1.bbappend"; "d/b_2.bb"].

End Grouping.

(** ** The orchestration: [main] *)

Module Pipeline.
Import PyStr.

(** The parsed command line, as far as [main] reads it ([args.output] is
    [None] for the default [sys.stderr]). *)
Record args := {
  suppress : list string;
  output : option string;
  fix_mode : bool;     (* args.fix *)
  nobackup : bool;
  addrules : list string;
  customrules : list string;
  quiet : bool;
  files : list string;
}.

(** Exceptions derived from [Exception]. *)
Inductive exn :=
| FileNotFoundError (msg : string)
| PatternError                       (* raised by [re.match] *)
| OtherError (msg : string).

Inductive outcome (A : Type) :=
| Val (a : A)
| Exc (e : exn).
Global Arguments Val {A} a.
Global Arguments Exc {A} e.

(** A rule object: identifiers, the two applicability flags and the two
    operations [fix] and [check]. Both operations receive the file system and the stash
    and hand back the stash as they leave it. *)
Record rule (stash key : Type) := {
  GetIDs : list string;
  OnAppend : bool;
  OnlyAppend : bool;
  r_fix : gmap string string → string → stash → outcome (list string * stash);
  r_check : gmap string string → string → stash → outcome (list (key * string) * stash);
}.
Global Arguments GetIDs {stash key} r.
Global Arguments OnAppend {stash key} r.
Global Arguments OnlyAppend {stash key} r.
Global Arguments r_fix {stash key} r fs f s.
Global Arguments r_check {stash key} r fs f s.

(** What [main] uses and this file does not define: the stash of
    [oelint_parser], the rule loader, the sort keys of the findings with
    their order (total and transitive, as [sorted] needs it), and two
    functions of the run time. [AddFile], [Finalize] and the operations of
    a rule may raise; a call of [AddFile] that raises leaves the stash as
    it was. The four queries of the stash are taken not to raise. *)
Class Collaborators := {
  stash : Type;
  key : Type;
  key_eq_dec :: EqDecision key;
  key_countable :: Countable key;
  key_le : relation key;
  key_le_dec :: RelDecision key_le;
  key_le_total :: Total key_le;
  key_le_trans :: Transitive key_le;
  Stash : args → stash;
  AddFile : gmap string string → stash → string → outcome stash;
  Finalize : stash → outcome stash;
  GetRecipes : stash → list string;
  GetLoneAppends : stash → list string;
  GetLinksForFile : stash → string → list string;
  (* the [RealRaw] of each item of [GetItemsFor(filename=i, nolink=True)] *)
  GetItemsFor : stash → string → list string;
  load_rules : args → outcome (list (rule stash key));
  (* whether [open(path, "w")] succeeds *)
  can_open_w : gmap string string → string → bool;
  abspath : string → string;
  (* [str] of a list of [str] *)
  repr_list : list string → string;
}.

(** A finding: [(sort key, display line)]. *)
Definition finding `{Collaborators} : Type := key * string.

(** What a run does to its surroundings, in order. *)
Inductive event :=
| Print (line : string)                   (* [print(line)] *)
| PrintExc (e : exn)                      (* [traceback.print_exc()] *)
| CallAddFile (f : string)
| CallFix (ids : list string) (f : string)
| CallCheck (ids : list string) (f : string)
| Rename (src dst : string)               (* [os.rename(src, dst)] *)
| WriteFile (path content : string)       (* [open(path, "w")], [write], close *)
| WriteStderr (text : string).

(** The file system, a flat map from paths to contents, and the events
    so far, oldest first. *)
Record world := {
  fs : gmap string string;
  log : list event;
}.

(** State and exception monad. *)
Definition M (A : Type) : Type := world → outcome A * world.

Definition ret {A} (a : A) : M A := λ w, (Val a, w).
Definition raise {A} (e : exn) : M A := λ w, (Exc e, w).
Definition bind {A B} (m : M A) (k : A → M B) : M B :=
  λ w, match m w with
       | (Val a, w') => k a w'
       | (Exc e, w') => (Exc e, w')
       end.
Definition lift {A} (o : outcome A) : M A := λ w, (o, w).
Definition emit (ev : event) : M unit :=
  λ w, (Val tt, {| fs := fs w; log := (log w ++ [ev])%list |}).
Definition get_fs : M (gmap string string) := λ w, (Val (fs w), w).
Definition set_fs (m : gmap string string) : M unit :=
  λ w, (Val tt, {| fs := m; log := log w |}).
Definition unless (b : bool) (m : M unit) : M unit := if b then ret tt else m.

(** The world after some more events. *)
Definition after (w : world) (evs : list event) : world :=
  {| fs := fs w; log := log w ++ evs |}.

Declare Scope py_scope.
Delimit Scope py_scope with py.
Notation "'do' x <- m ; k" := (bind m (λ x, k))
  (at level 10, x name, m at level 100, k at level 200, only parsing) : py_scope.
Notation "'run' m ; k" := (bind m (λ _, k))
  (at level 10, m at level 100, k at level 200, only parsing) : py_scope.
Local Open Scope py_scope.

Definition nl : string := String "010" EmptyString.
Definition tab : string := String "009" EmptyString.

(** [os.rename(src, dst)]: fails when [src] does not exist. *)
Definition os_rename (src dst : string) : M unit :=
  do m <- get_fs;
  match m !! src with
  | None => raise (FileNotFoundError src)
  | Some c =>
      run emit (Rename src dst);
      set_fs (<[dst := c]> (delete src m))
  end.

(** [with open(path, "w") as o: o.write(content)] *)
Definition write_file `{Collaborators} (path content : string) : M unit :=
  do m <- get_fs;
  if can_open_w m path
  then (run emit (WriteFile path content); set_fs (<[path := content]> m))
  else raise (OtherError path).

Section main.
Context `{Collaborators}.
Variable a : args.

Abbreviation rule := (rule stash key).

(** Line 114: the rules none of whose identifiers is suppressed. *)
Definition not_suppressed (x : rule) : bool :=
  negb (existsb (λ y, bool_decide (y ∈ suppress a)) (GetIDs x)).

(** Lines 125-130. *)
Fixpoint ingest (group : list string) (s : stash) : M stash :=
  match group with
  | [] => ret s
  | f :: rest =>
      run emit (CallAddFile f);
      do m <- get_fs;
      match AddFile m s f with
      | Val s' => ingest rest s'
      | Exc (FileNotFoundError e) =>
          run unless (quiet a) (emit (Print ("Can't open/read: " +:+ e)));
          ingest rest s
      | Exc e => raise e
      end
  end.

(** Lines 141-142: [if args.fix: fixedfiles += r.fix(f, stash)]. *)
Definition fix_part (f : string) (r : rule) (s : stash)
    (fixedfiles : list string) : M (stash * list string) :=
  if fix_mode a then
    run emit (CallFix (GetIDs r) f);
    do m <- get_fs;
    do xs <- lift (r_fix r m f s);
    ret (xs.2, (fixedfiles ++ xs.1)%list)
  else ret (s, fixedfiles).

(** Line 143: [issues += r.check(f, stash)]. *)
Definition check_part (f : string) (r : rule) (s : stash)
    (issues : list finding) : M (stash * list finding) :=
  run emit (CallCheck (GetIDs r) f);
  do m <- get_fs;
  do ys <- lift (r_check r m f s);
  ret (ys.2, (issues ++ ys.1)%list).

(** Whether lines 137-140 let rule [r] through for file [f]. *)
Definition applicable (f : string) (r : rule) : bool :=
  if negb (OnAppend r) && endswith f ".bbappend" then false
  else if OnlyAppend r && negb (endswith f ".bbappend") then false
  else true.

(** Lines 137-143, for one rule and one file. *)
Definition run_rule (f : string) (r : rule)
    (st : stash * list finding * list string)
    : M (stash * list finding * list string) :=
  let '(s, issues, fixedfiles) := st in
  if applicable f r then
    do sf <- fix_part f r s fixedfiles;
    do si <- check_part f r sf.1 issues;
    ret (si.1, si.2, sf.2)
  else ret st.

(** Line 136: [for r in rules]. *)
Fixpoint run_rules (f : string) (rules : list rule)
    (st : stash * list finding * list string)
    : M (stash * list finding * list string) :=
  match rules with
  | [] => ret st
  | r :: rest =>
      do st' <- run_rule f r st;
      run_rules f rest st'
  end.

(** Lines 135-145: [for index, f in enumerate(_files)]; [total] is
    [len(_files)]. *)
Fixpoint check_files (rules : list rule) (index total : nat)
    (_files : list string) (st : stash * list finding * list string)
    : M (stash * list finding * list string) :=
  match _files with
  | [] => ret st
  | f :: rest =>
      do st' <- run_rules f rules st;
      run unless (quiet a)
        (emit (Print (pretty index +:+ "/" +:+ pretty total +:+ " files checked")));
      check_files rules (S index) total rest st'
  end.

(** What lines 135-145 are to show in fix mode when no operation raises:
    for each file in turn and each rule that applies to it in turn, the
    [fix] call and directly after it the [check] call; once the rules
    are through with a file, the progress message, unless quiet. *)
Definition fix_then_check (f : string) (rules : list rule) : list event :=
  flat_map (λ r, if applicable f r
                 then [CallFix (GetIDs r) f; CallCheck (GetIDs r) f]
                 else []) rules.

Fixpoint loop_calls (rules : list rule) (index total : nat)
    (_files : list string) : list event :=
  match _files with
  | [] => []
  | f :: rest =>
      fix_then_check f rules
      ++ (if quiet a then []
          else [Print (pretty index +:+ "/" +:+ pretty total +:+ " files checked")])
      ++ loop_calls rules (S index) total rest
  end.

(** Lines 150-157, for one file [i]. *)
Definition rewrite_file (s : stash) (i : string) : M unit :=
  let items := GetItemsFor s i in
  run unless (nobackup a) (os_rename i (i +:+ ".bak"));
  run write_file i (String.concat "" items);
  unless (quiet a)
    (emit (Print (abspath i +:+ ":" +:+ "debug" +:+ ":" +:+ "Applied automatic fixes"))).

(** What rewriting [i] shows: the backup, unless disabled, then the
    write, then the message, unless quiet. *)
Definition rewrite_events (s : stash) (i : string) : list event :=
  (if nobackup a then [] else [Rename i (i +:+ ".bak")])
  ++ [WriteFile i (String.concat "" (GetItemsFor s i))]
  ++ (if quiet a then []
      else [Print (abspath i +:+ ":" +:+ "debug" +:+ ":" +:+ "Applied automatic fixes")]).

(** [[f] + stash.GetLinksForFile(f)] for each [f] in turn. *)
Definition linked_items (s : stash) (fixedfiles : list string) : list string :=
  flat_map (λ f, f :: GetLinksForFile s f) fixedfiles.

(** Lines 149-157: [for i in _items]. *)
Fixpoint rewrite_files (s : stash) (_items : list string) : M unit :=
  match _items with
  | [] => ret tt
  | i :: rest =>
      run rewrite_file s i;
      rewrite_files s rest
  end.

(** Lines 147-157: [for f in fixedfiles]. *)
Fixpoint fix_transaction (s : stash) (fixedfiles : list string) : M unit :=
  match fixedfiles with
  | [] => ret tt
  | f :: rest =>
      run rewrite_files s (f :: GetLinksForFile s f);
      fix_transaction s rest
  end.

(** [list(set(l))] *)
Definition list_set {A} `{Countable A} (l : list A) : list A :=
  elements (list_to_set l : gset A).

(** Lines 124-157: the body of [for group in groups]. *)
Definition process_group (rules : list rule) (group : list string)
    (acc : list finding * list string) : M (list finding * list string) :=
  do s <- ingest group (Stash a);
  do s <- lift (Finalize s);
  let _files := list_set (GetRecipes s ++ GetLoneAppends s)%list in
  do st <- check_files rules 0 (length _files) _files (s, acc.1, acc.2);
  let fixedfiles := list_set st.2 in
  run fix_transaction st.1.1 fixedfiles;
  ret (st.1.2, fixedfiles).

(** Line 123: [for group in groups]. *)
Fixpoint process_groups (rules : list rule) (groups : list (list string))
    (acc : list finding * list string) : M (list finding * list string) :=
  match groups with
  | [] => ret acc
  | group :: rest =>
      do acc' <- process_group rules group acc;
      process_groups rules rest acc'
  end.

(** Line 159: [sorted(set(issues), key=lambda x: x[0])]. *)
Definition finding_le : relation finding := λ x y, key_le x.1 y.1.

Global Instance finding_le_dec : RelDecision finding_le.
Proof. intros x y. unfold finding_le. apply _. Defined.

Definition sorted_issues (issues : list finding) : list finding :=
  merge_sort finding_le (list_set issues).

(** Lines 161-165: the text goes to [sys.stderr] or to the file named
    by [--output]. *)
Definition report (issues : list finding) : M unit :=
  let text := String.concat nl (map snd issues) +:+ nl in
  match output a with
  | None => emit (WriteStderr text)
  | Some path => write_file path text
  end.

(** Lines 111-122: up to and including the call of [group_files]. *)
Definition prepare : M (list rule * list (list string)) :=
  do rules <- lift (load_rules a);
  let rules := filter (λ x, not_suppressed x) rules in
  let _loadedIDs := flat_map GetIDs rules in
  run unless (quiet a)
    (emit (Print ("Loaded rules:" +:+ nl +:+ tab +:+
                  String.concat (nl +:+ tab) (merge_sort String.le _loadedIDs))));
  match Grouping.group_files (files a) with
  | None => raise PatternError
  | Some groups => ret (rules, groups)
  end.

(** Lines 111-157: everything that feeds [issues]. *)
Definition collect : M (list finding) :=
  do rg <- prepare;
  do acc <- process_groups rg.1 rg.2 ([], []);
  ret acc.1.

(** The body of the [try]: its value is the argument of [sys.exit],
    whose [SystemExit] is no [Exception] and leaves [main]. *)
Definition try_body : M nat :=
  do issues <- collect;
  let issues := sorted_issues issues in
  run report issues;
  ret (length issues).

(** How [main] ends. *)
Inductive ending :=
| Exited (status : nat)    (* [sys.exit(status)] *)
| Returned.                (* the handler ran and [main] returned [None] *)

(** The [except Exception] handler, lines 167-170. *)
Definition handler (e : exn) : M unit :=
  run emit (Print ("OOPS - That shouldn't happen - " +:+ repr_list (files a)));
  emit (PrintExc e).

(** Lines 108-170. *)
Definition main : world → ending * world :=
  λ w, match try_body w with
       | (Val n, w') => (Exited n, w')
       | (Exc e, w') => (Returned, (handler e w').2)
       end.

(** The exit status of the process. [sys.exit(n)] hands [n] to the
    system, which keeps its low eight bits as the status of the process;
    a [main] that returns ends the process with 0. *)
Definition exit_status (e : ending) : nat :=
  match e with
  | Exited n => n mod 256
  | Returned => O
  end.

End main.

(** Traces in which a [check] call comes only directly after the [fix]
    call of the same rule on the same file. *)
Inductive fix_first : list event → Prop :=
| fix_first_nil : fix_first []
| fix_first_pair ids f rest :
    fix_first rest → fix_first (CallFix ids f :: CallCheck ids f :: rest)
| fix_first_other ev rest :
    (∀ ids f, ev ≠ CallCheck ids f) → fix_first rest → fix_first (ev :: rest).

(** *** A small instance, to run the definitions

    The stash is the list of the files added so far, a file can be added
    when it exists, every other file of the stash is linked to a file, and
    the one rule reports one finding per file and marks the file as
    fixed. *)

Definition demo_rule : rule (list string) nat := {|
  GetIDs := ["demo.rule"];
  OnAppend := true;
  OnlyAppend := false;
  r_fix := λ _ f s, Val ([f], s);
  r_check := λ _ f s, Val ([(length s, f +:+ ":1:demo finding")], s);
|}.

Definition demo : Collaborators := {|
  stash := list string;
  key := nat;
  key_le := Nat.le;
  Stash := λ _, [];
  AddFile := λ m s f,
    match m !! f with
    | Some _ => Val (s ++ [f])
    | None => Exc (FileNotFoundError f)
    end;
  Finalize := Val;
  GetRecipes := λ s, filter (λ f, Grouping.is_base f = true) s;
  GetLoneAppends := λ _, [];
  GetLinksForFile := λ s f, filter (λ x, x ≠ f) s;
  GetItemsFor := λ _ i, ["# "; i; nl];
  load_rules := λ _, Val [demo_rule];
  can_open_w := λ _ _, true;
  abspath := λ p, p;
  repr_list := String.concat ", ";
|}.

Definition demo_args (fix_mode quiet : bool) (files : list string) : args := {|
  suppress := [];
  output := None;
  fix_mode := fix_mode;
  nobackup := false;
  addrules := [];
  customrules := [];
  quiet := quiet;
  files := files;
|}.

Definition demo_world : world := {|
  fs := {[ "d/a_1.0.bb" := "A = 1" +:+ nl;
           "d/a_1.0.bbappend" := "A = 2" +:+ nl ]};
  log := [];
|}.

(** The same instance with a rule that reports 256 findings on every
    file, all different by their sort keys. *)
Definition noisy_rule : rule (list string) nat := {|
  GetIDs := ["noisy.rule"];
  OnAppend := true;
  OnlyAppend := false;
  r_fix := λ _ _ s, Val ([], s);
  r_check := λ _ f s,
    Val (map (λ i, (i, f +:+ ":1:noisy finding")) (seq 0 256), s);
|}.

Definition noisy : Collaborators := {|
  stash := list string;
  key := nat;
  key_le := Nat.le;
  Stash := λ _, [];
  AddFile := λ m s f,
    match m !! f with
    | Some _ => Val (s ++ [f])
    | None => Exc (FileNotFoundError f)
    end;
  Finalize := Val;
  GetRecipes := λ s, filter (λ f, Grouping.is_base f = true) s;
  GetLoneAppends := λ _, [];
  GetLinksForFile := λ s f, filter (λ x, x ≠ f) s;
  GetItemsFor := λ _ i, ["# "; i; nl];
  load_rules := λ _, Val [noisy_rule];
  can_open_w := λ _ _, true;
  abspath := λ p, p;
  repr_list := String.concat ", ";
|}.

End Pipeline.

(** ** Further notions about names and patterns *)

Module Names.
Import PyStr OsPath Re Grouping.

(** Every character of [s] passes [P]. *)
Fixpoint all_chars (P : ascii → bool) (s : string) : bool :=
  match s with
  | EmptyString => true
  | String a r => P a && all_chars P r
  end.

Definition newline : ascii := "010".

Definition not_newline (c : ascii) : bool := negb (Ascii.eqb c newline).

(** A character that a pattern takes for itself or, for the dot, for any
    character: no syntax of [re], no wildcard marker, no newline. *)
Definition plain_char (c : ascii) : bool :=
  negb (is_special c) && negb (Ascii.eqb c "%") && not_newline c.

(** The first character is one of the quantifiers [*], [+], [?]. *)
Definition starts_with_quant (s : string) : bool :=
  match s with
  | EmptyString => false
  | String q _ => match parse_quant q with Some _ => true | None => false end
  end.

(** The regex of a name of plain characters. *)
Definition atom_of (c : ascii) : atom := if Ascii.eqb c "." then Dot else Lit c.

Fixpoint lits (s : string) : regex :=
  match s with
  | EmptyString => []
  | String a r => (atom_of a, One) :: lits r
  end.

(** No path of the list has a directory part. *)
Definition bare (files : list string) : bool :=
  forallb (λ x, negb (contains "/" x)) files.

(** Every append file of the list has a pattern of the fragment and a
    base name that does not start with a quantifier. *)
Definition tame_appends (files : list string) : bool :=
  forallb (λ f, negb (is_append f)
                || (compiles (needle f)
                    && negb (starts_with_quant (basename (root f))))) files.

(** The last character. *)
Fixpoint last_char (s : string) : option ascii :=
  match s with
  | EmptyString => None
  | String a EmptyString => Some a
  | String _ r => last_char r
  end.

End Names.

(** ** What a run may do *)

Module Runs.
Import PyStr Pipeline.

Section runs.
Context `{Collaborators}.
Variable a : args.

(** The rules that are left after line 114, when the loader answers. *)
Definition active_rules : list (rule stash key) :=
  match load_rules a with
  | Val rules => filter (λ x, not_suppressed a x) rules
  | Exc _ => []
  end.

(** The events that lines 111-157 may give rise to with the rules
    [rules]: messages only when not quiet, calls of the operations of a
    rule only for a rule of the list that applies to the file, [fix]
    calls, renamings and writes only in fix mode, renamings only to the
    backup name and only when backups are on; neither the report nor the
    trace of the handler. *)
Definition expected (rules : list (rule stash key)) (ev : event) : Prop :=
  match ev with
  | Print _ => quiet a = false
  | PrintExc _ => False
  | CallAddFile _ => True
  | CallFix ids f =>
      fix_mode a = true
      ∧ ∃ r, r ∈ rules ∧ GetIDs r = ids ∧ applicable f r = true
  | CallCheck ids f =>
      ∃ r, r ∈ rules ∧ GetIDs r = ids ∧ applicable f r = true
  | Rename src dst =>
      fix_mode a = true ∧ nobackup a = false ∧ dst = src +:+ ".bak"
  | WriteFile _ _ => fix_mode a = true
  | WriteStderr _ => False
  end.

(** A computation that adds only expected events and, outside fix mode,
    leaves the file system as it is. *)
Definition run_ok (rules : list (rule stash key)) {A} (m : M A) : Prop :=
  ∀ w, ∃ evs,
    log (m w).2 = log w ++ evs
    ∧ Forall (expected rules) evs
    ∧ (fix_mode a = false → fs (m w).2 = fs w).

End runs.

(** The files offered to the stash, in order. *)
Definition added (evs : list event) : list string :=
  omap (λ ev, match ev with CallAddFile f => Some f | _ => None end) evs.

(** The item [j] of a fix transaction is neither the backup of [i] nor has
    [i] as its backup. *)
Definition apart (i j : string) : Prop := j ≠ i +:+ ".bak" ∧ j +:+ ".bak" ≠ i.

End Runs.

(** * Properties *)

(** Settle a decidable closed goal by evaluation. *)
Ltac by_evaluation :=
  lazymatch goal with
  | |- ?P => apply (bool_decide_eq_true_1 P); vm_compute; reflexivity
  end.

(** ** The Group Builder *)

Module GroupingFacts.
Import PyStr OsPath Re Grouping.

Lemma pass1_step_unfold res f :
  pass1_step res f = if is_base f then dict_add (key_of f) f res else res.
Proof.
  unfold pass1_step, is_base, key_of, ext, root.
  destruct (splitext f) as [fn e]; simpl.
  destruct (decide (e = ".bb")) as [->|Hne].
  - by rewrite bool_decide_eq_true_2.
  - by rewrite bool_decide_eq_false_2.
Qed.

Lemma pass2_step_unfold res f :
  pass2_step res f =
    if is_append f then
      match add_to_first_match (needle f) f res with
      | Failed => None
      | Matched res' => Some res'
      | NoMatch => Some (dict_add (key_of f) f res)
      end
    else Some res.
Proof.
  unfold pass2_step, is_append, key_of, needle, ext, root.
  destruct (splitext f) as [fn e]; simpl.
  destruct (decide (e = ".bbappend")) as [->|Hne].
  - by rewrite bool_decide_eq_true_2.
  - by rewrite bool_decide_eq_false_2.
Qed.

Lemma base_not_append f : is_base f = true → is_append f = false.
Proof.
  unfold is_base, is_append. intros Hb%bool_decide_eq_true.
  apply bool_decide_eq_false. rewrite Hb. discriminate.
Qed.

(** *** [any_match] *)

Lemma any_match_true n xs :
  any_match n xs = Some true → ∃ x, x ∈ xs ∧ re_match n x = Some true.
Proof.
  induction xs as [|x xs IH]; simpl; [discriminate|].
  destruct (re_match n x) as [[]|] eqn:E; try discriminate.
  - intros _. exists x. split; [left|done].
  - intros [y [Hy Hm]]%IH. exists y. split; [by right|done].
Qed.

Lemma any_match_false n xs :
  any_match n xs = Some false → ∀ x, x ∈ xs → re_match n x = Some false.
Proof.
  induction xs as [|x xs IH]; simpl; intros Hm y Hy; [by inv Hy|].
  destruct (re_match n x) as [[]|] eqn:E; try discriminate.
  inv Hy; auto.
Qed.

Lemma re_match_is_Some n x : is_Some (compile n) → is_Some (re_match n x).
Proof. unfold re_match. intros [r ->]. eauto. Qed.

Lemma any_match_is_Some n xs : is_Some (compile n) → is_Some (any_match n xs).
Proof.
  intros Hc. induction xs as [|x xs IH]; simpl; [eauto|].
  destruct (re_match_is_Some n x Hc) as [[] ->]; eauto.
Qed.

(** *** Steps of the dictionary *)

Lemma dict_add_grows k f res :
  ∃ i, grows f res i (dict_add k f res)
       ∧ (dict_add k f res).*1 !! i = Some k
       ∧ (k ∈ res.*1 → res.*1 !! i = Some k).
Proof.
  induction res as [|[k' v] res IH]; simpl.
  - exists 0. split_and!; [|done|by intros ?%elem_of_nil].
    apply (grows_new f [] k). apply not_elem_of_nil.
  - destruct (decide (k' = k)) as [->|Hne].
    + exists 0. split_and!; [|done|done].
      apply (grows_at f ((k, v) :: res) 0 k v). done.
    + destruct IH as (i & Hg & Hk & Hin). exists (S i). split_and!; [|done|].
      * inv Hg.
        -- apply (grows_at f ((k', v) :: res) (S i) k0 v0). done.
        -- apply (grows_new f ((k', v) :: res) k0). simpl.
           rewrite elem_of_cons. intros [->|?]; [|done].
           rewrite <- H in Hk. rewrite fmap_app in Hk.
           rewrite lookup_app_r in Hk by (by rewrite length_fmap).
           rewrite length_fmap, Nat.sub_diag in Hk. simpl in Hk. congruence.
      * simpl. rewrite elem_of_cons. intros [?|?]; [congruence|auto].
Qed.

Lemma add_to_first_match_matched n f res res' :
  add_to_first_match n f res = Matched res' →
  ∃ i k v, res !! i = Some (k, v)
           ∧ res' = <[i := (k, v ∪ {[ f ]})]> res
           ∧ (∃ x, x ∈ v ∧ re_match n x = Some true)
           ∧ (∀ j x, j < i → member res j x → re_match n x = Some false).
Proof.
  revert res'. induction res as [|[k v] res IH]; simpl; intros res'; [discriminate|].
  destruct (any_match n (elements v)) as [[]|] eqn:E; try discriminate.
  - intros [= <-]. exists 0, k, v. split_and!; [done|done| |intros; lia].
    apply any_match_true in E as (x & Hx & Hm).
    exists x. split; [by apply elem_of_elements|done].
  - destruct (add_to_first_match n f res) as [| |r] eqn:E'; try discriminate.
    intros [= <-]. destruct (IH r eq_refl) as (i & k' & v' & Hl & -> & Hx & Hlt).
    exists (S i), k', v'. split_and!; [done|done|done|].
    intros [|j] x Hj (kv & Hkv & Hin); simpl in Hkv.
    + inv Hkv. eapply any_match_false; [done|]. by apply elem_of_elements.
    + apply (Hlt j x); [lia|]. by exists kv.
Qed.

Lemma add_to_first_match_nomatch n f res :
  add_to_first_match n f res = NoMatch →
  ∀ j x, member res j x → re_match n x = Some false.
Proof.
  induction res as [|[k v] res IH]; simpl; intros Hm j x (kv & Hkv & Hin).
  - by destruct j.
  - destruct (any_match n (elements v)) as [[]|] eqn:E; try discriminate.
    destruct (add_to_first_match n f res) as [| |r] eqn:E'; try discriminate.
    destruct j as [|j]; simpl in Hkv.
    + inv Hkv. eapply any_match_false; [done|]. by apply elem_of_elements.
    + apply (IH eq_refl j x). by exists kv.
Qed.

Lemma add_to_first_match_not_failed n f res :
  is_Some (compile n) → add_to_first_match n f res ≠ Failed.
Proof.
  intros Hc. induction res as [|[k v] res IH]; simpl; [done|].
  destruct (any_match_is_Some n (elements v) Hc) as [[] ->]; [done|].
  by destruct (add_to_first_match n f res).
Qed.

(** Every step of the second round is a [grows] step or leaves the
    dictionary alone. *)
Lemma pass2_step_grows res f res' :
  pass2_step res f = Some res' →
  (is_append f = false ∧ res' = res)
  ∨ (is_append f = true ∧ ∃ i, grows f res i res').
Proof.
  rewrite pass2_step_unfold. destruct (is_append f); [|intros [= <-]; by left].
  intros Hs. right. split; [done|].
  destruct (add_to_first_match (needle f) f res) as [| |r] eqn:E; try discriminate.
  - inv Hs. destruct (dict_add_grows (key_of f) f res) as (i & Hg & _). eauto.
  - inv Hs. apply add_to_first_match_matched in E as (i & k & v & Hl & -> & _).
    exists i. by apply grows_at.
Qed.

(** *** What a [grows] step changes *)

Lemma grows_keys f res i res' :
  grows f res i res' →
  res'.*1 = res.*1 ∨ (∃ k, (k ∉ res.*1) ∧ i = length res ∧ res'.*1 = res.*1 ++ [k]).
Proof.
  intros [j k v Hl | k Hk].
  - left. rewrite list_fmap_insert. simpl. apply list_insert_id.
    by rewrite list_lookup_fmap, Hl.
  - right. exists k. by rewrite fmap_app.
Qed.

Lemma grows_key_stable f res i res' j k :
  grows f res i res' → res.*1 !! j = Some k → res'.*1 !! j = Some k.
Proof.
  intros [-> | (k' & _ & _ & ->)]%grows_keys Hj; [done|].
  by apply lookup_app_l_Some.
Qed.

Lemma grows_NoDup f res i res' :
  grows f res i res' → NoDup res.*1 → NoDup res'.*1.
Proof.
  intros [-> | (k' & Hk & _ & ->)]%grows_keys Hnd; [done|].
  apply NoDup_app. split_and!; [done| |apply NoDup_singleton].
  intros x Hx ->%list_elem_of_singleton. done.
Qed.

Lemma grows_member f res i res' j x :
  grows f res i res' →
  member res' j x ↔ member res j x ∨ (j = i ∧ x = f).
Proof.
  intros [i' k v Hl | k Hk]; unfold member.
  - destruct (decide (j = i')) as [->|Hne].
    + rewrite list_lookup_insert_eq by (by eapply lookup_lt_Some). split.
      * intros (kv & [= <-] & Hx). simpl in Hx.
        apply elem_of_union in Hx as [Hx | ->%elem_of_singleton]; [|by right].
        left. by exists (k, v).
      * intros [(kv & Hkv & Hx) | [_ ->]]; eexists; (split; [done|]); simpl.
        -- rewrite Hl in Hkv. inv Hkv. set_solver.
        -- set_solver.
    + rewrite list_lookup_insert_ne by done. naive_solver.
  - destruct (decide (j < length res)) as [Hlt|Hge].
    + rewrite lookup_app_l by done. split; [naive_solver|].
      intros [?|[-> _]]; [done|lia].
    + rewrite lookup_app_r by lia. split.
      * intros (kv & Hkv & Hx). right.
        destruct (j - length res) as [|n] eqn:E; simpl in Hkv; [|by destruct n].
        inv Hkv. simpl in Hx. apply elem_of_singleton in Hx. split; [lia|done].
      * intros [(kv & Hkv & _) | [-> ->]].
        -- apply lookup_lt_Some in Hkv. lia.
        -- rewrite Nat.sub_diag. simpl. eexists. split; [done|]. set_solver.
Qed.

Lemma grows_member_mono f res i res' j x :
  grows f res i res' → member res j x → member res' j x.
Proof. intros Hg Hm. apply (grows_member _ _ _ _ _ _ Hg). by left. Qed.

Lemma grows_member_new f res i res' :
  grows f res i res' → member res' i f.
Proof. intros Hg. apply (grows_member _ _ _ _ _ _ Hg). by right. Qed.

Lemma member_lt res i x : member res i x → i < length res.
Proof. intros (kv & Hkv & _). by eapply lookup_lt_Some. Qed.

(** *** The two rounds as iterations *)

Lemma pass1_snoc l f : pass1 (l ++ [f]) = pass1_step (pass1 l) f.
Proof. unfold pass1. by rewrite fold_left_app. Qed.

Lemma pass2_app l1 l2 res :
  pass2 (l1 ++ l2) res =
    match pass2 l1 res with
    | Some res' => pass2 l2 res'
    | None => None
    end.
Proof.
  revert res. induction l1 as [|f l1 IH]; intros res; simpl; [done|].
  destruct (pass2_step res f); [apply IH|done].
Qed.

(** Invariants of the second round are proved step by step; [done] is
    the part of the list already gone through. *)
Lemma pass2_ind (P : list string → dict → Prop) rest :
  ∀ done res res',
    (∀ done res f res', P done res → pass2_step res f = Some res' → P (done ++ [f]) res') →
    P done res → pass2 rest res = Some res' → P (done ++ rest) res'.
Proof.
  induction rest as [|f rest IH]; intros done res res' Hstep HP Hp; simpl in Hp.
  - inv Hp. by rewrite app_nil_r.
  - destruct (pass2_step res f) as [r|] eqn:E; [|done].
    replace (done ++ f :: rest) with ((done ++ [f]) ++ rest)
      by (by rewrite <- app_assoc).
    eapply IH; [done| |done]. by eapply Hstep.
Qed.

Lemma pass1_ind (P : list string → dict → Prop) files :
  P [] [] →
  (∀ done res f, P done res → P (done ++ [f]) (pass1_step res f)) →
  P files (pass1 files).
Proof.
  intros H0 Hstep. induction files as [|f files IH] using rev_ind; [done|].
  rewrite pass1_snoc. by apply Hstep.
Qed.

(** *** Invariants of the two rounds *)

Lemma round1_step done res f :
  round1 done res → round1 (done ++ [f]) (pass1_step res f).
Proof.
  intros [Hnd Hmem Hin Hfirst]. rewrite pass1_step_unfold.
  destruct (is_base f) eqn:Hb.
  - destruct (dict_add_grows (key_of f) f res) as (i & Hg & Hk & _).
    split.
    + by eapply grows_NoDup.
    + intros j x [Hm | [-> ->]]%(grows_member _ _ _ _ _ _ Hg).
      * destruct (Hmem j x Hm) as (? & ? & ?). split_and!; [set_solver|done|].
        by eapply grows_key_stable.
      * split_and!; [set_solver|done|done].
    + intros x [Hx | ->%list_elem_of_singleton]%elem_of_app Hbx.
      * destruct (Hin x Hx Hbx) as [j Hj]. exists j. by eapply grows_member_mono.
      * exists i. by eapply grows_member_new.
    + intros j Hj. destruct (decide (j < length res)) as [Hlt|Hge].
      * destruct (Hfirst j Hlt) as [x Hx]. exists x. by eapply grows_member_mono.
      * exists f. apply (grows_member _ _ _ _ _ _ Hg). right. split; [|done].
        destruct (grows_keys _ _ _ _ Hg) as [E | (k & _ & -> & E)].
        -- apply (f_equal length) in E. rewrite !length_fmap in E. lia.
        -- apply (f_equal length) in E.
           rewrite length_app, !length_fmap in E. simpl in E. lia.
  - split.
    + done.
    + intros j x Hm. destruct (Hmem j x Hm) as (? & ? & ?). split_and!; [set_solver|done..].
    + intros x [Hx | ->%list_elem_of_singleton]%elem_of_app Hbx; [by apply Hin|congruence].
    + done.
Qed.

Lemma round1_pass1 files : round1 files (pass1 files).
Proof.
  apply (pass1_ind round1).
  - split; [constructor| | |].
    + intros i x (kv & Hkv & _). by destruct i.
    + by intros x ?%elem_of_nil.
    + simpl. lia.
  - intros done res f. apply round1_step.
Qed.

Lemma round2_start files :
  round2 files (length (pass1 files)) [] (pass1 files).
Proof.
  destruct (round1_pass1 files) as [Hnd Hmem Hin Hfirst]. split.
  - done.
  - intros i x Hm. left. destruct (Hmem i x Hm) as (? & ? & ?).
    split_and!; [done..|]. by eapply member_lt.
  - done.
  - by intros x ?%elem_of_nil.
  - intros i Hi. destruct (Hfirst i Hi) as [x Hx]. exists x. split; [done|].
    by destruct (Hmem i x Hx) as (? & ? & ?).
Qed.

Lemma round2_step files n1 done res f res' :
  round2 files n1 done res → pass2_step res f = Some res' →
  round2 files n1 (done ++ [f]) res'.
Proof.
  intros [Hnd Hmem Hbase Happ Hfirst] [[Hf ->] | [Hf [i Hg]]]%pass2_step_grows.
  - split; [done| |done| |done].
    + intros j x Hm. destruct (Hmem j x Hm) as [?|[? ?]]; [by left|right].
      split; [done|set_solver].
    + intros x [Hx | ->%list_elem_of_singleton]%elem_of_app Hax; [by apply Happ|congruence].
  - split.
    + by eapply grows_NoDup.
    + intros j x [Hm | [-> ->]]%(grows_member _ _ _ _ _ _ Hg).
      * destruct (Hmem j x Hm) as [(? & ? & ? & ?)|[? ?]]; [left|right].
        -- split_and!; [done..| |done]. by eapply grows_key_stable.
        -- split; [done|set_solver].
      * right. split; [done|set_solver].
    + intros x Hx Hbx. destruct (Hbase x Hx Hbx) as [j Hj]. exists j.
      by eapply grows_member_mono.
    + intros x [Hx | ->%list_elem_of_singleton]%elem_of_app Hax.
      * destruct (Happ x Hx Hax) as [j Hj]. exists j. by eapply grows_member_mono.
      * exists i. by eapply grows_member_new.
    + intros j Hj. destruct (Hfirst j Hj) as (x & Hx & Hbx). exists x.
      split; [|done]. by eapply grows_member_mono.
Qed.

Lemma placed_once_step files n1 done res f res' :
  round2 files n1 done res → placed_once res →
  (is_append f = true → f ∉ done) →
  pass2_step res f = Some res' → placed_once res'.
Proof.
  intros HQ HU Hfresh [[Hf ->] | [Hf [i Hg]]]%pass2_step_grows; [done|].
  intros j1 j2 x Hax [H1 | [-> ->]]%(grows_member _ _ _ _ _ _ Hg)
    [H2 | [-> Hx2]]%(grows_member _ _ _ _ _ _ Hg); [by eapply HU| | |done].
  - subst x. destruct (r2_mem _ _ _ _ HQ j1 f H1) as [(Hb & _)|[_ Hd]].
    + apply base_not_append in Hb. congruence.
    + by apply Hfresh in Hd.
  - destruct (r2_mem _ _ _ _ HQ j2 f H2) as [(Hb & _)|[_ Hd]].
    + apply base_not_append in Hb. congruence.
    + by apply Hfresh in Hd.
Qed.

Lemma filter_append_fresh (done : list string) f :
  NoDup (filter (λ x, is_append x = true) (done ++ [f])) →
  NoDup (filter (λ x, is_append x = true) done)
  ∧ (is_append f = true → f ∉ done).
Proof.
  rewrite filter_app. intros [Hd [Hdisj _]]%NoDup_app. split; [done|].
  intros Hf Hin. apply (Hdisj f).
  - by apply list_elem_of_filter.
  - rewrite filter_cons_True by done. left.
Qed.

Lemma round2_run files done res rest res' :
  round2 files (length (pass1 files)) done res →
  (NoDup (filter (λ x, is_append x = true) done) → placed_once res) →
  pass2 rest res = Some res' →
  round2 files (length (pass1 files)) (done ++ rest) res'
  ∧ (NoDup (filter (λ x, is_append x = true) (done ++ rest)) → placed_once res').
Proof.
  intros HQ HU Hp.
  apply (pass2_ind (λ d r, round2 files (length (pass1 files)) d r
           ∧ (NoDup (filter (λ x, is_append x = true) d) → placed_once r))
           rest done res res'); [|done|done].
  clear. intros done res f res' [HQ HU] Hs. split.
  - by eapply round2_step.
  - intros [Hnd Hfresh]%filter_append_fresh. eapply placed_once_step; eauto.
Qed.

Lemma round2_end files res :
  pass2 files (pass1 files) = Some res →
  round2 files (length (pass1 files)) files res
  ∧ (NoDup (filter (λ x, is_append x = true) files) → placed_once res).
Proof.
  intros Hp. apply (round2_run files [] (pass1 files) files res); [|intros _|done].
  - apply round2_start.
  - intros i j x Hax Hi _.
    destruct (r1_mem _ _ (round1_pass1 files) i x Hi) as (_ & Hb & _).
    apply base_not_append in Hb. congruence.
Qed.

(** Nothing sits at two positions. *)
Lemma round2_unique files n1 done res i j x :
  round2 files n1 done res → placed_once res →
  member res i x → member res j x → i = j.
Proof.
  intros HQ HU Hi Hj.
  destruct (r2_mem _ _ _ _ HQ i x Hi) as [(Hb & _ & Hki & _)|[Ha _]].
  - destruct (r2_mem _ _ _ _ HQ j x Hj) as [(_ & _ & Hkj & _)|[Ha _]].
    + eapply NoDup_lookup; [apply (r2_nodup _ _ _ _ HQ)|done..].
    + apply base_not_append in Hb. congruence.
  - by eapply HU.
Qed.

Lemma pass2_mono rest res res' i x :
  pass2 rest res = Some res' → member res i x → member res' i x.
Proof.
  revert res. induction rest as [|f rest IH]; intros res Hp Hm; simpl in Hp.
  - by inv Hp.
  - destruct (pass2_step res f) as [r|] eqn:E; [|done].
    apply (IH r Hp).
    apply pass2_step_grows in E as [[_ ->] | [_ [j Hg]]]; [done|].
    by eapply grows_member_mono.
Qed.

(** *** The result of [group_files] *)

Global Instance index_le_total files : Total (index_le files).
Proof. intros a b. unfold index_le. lia. Qed.

Global Instance index_le_trans files : Transitive (index_le files).
Proof. intros a b c. unfold index_le. lia. Qed.

Lemma sorted_by_index_elem files v x : x ∈ sorted_by_index files v ↔ x ∈ v.
Proof.
  unfold sorted_by_index. rewrite merge_sort_Permutation. apply elem_of_elements.
Qed.

Lemma sorted_by_index_NoDup files v : NoDup (sorted_by_index files v).
Proof.
  unfold sorted_by_index. rewrite merge_sort_Permutation. apply NoDup_elements.
Qed.

Lemma index_lookup files x : x ∈ files → files !! index files x = Some x.
Proof.
  induction files as [|y files IH]; simpl; [by intros ?%elem_of_nil|].
  intros Hx. destruct (decide (y = x)) as [->|Hne]; [done|].
  simpl. apply IH. by apply elem_of_cons in Hx as [->|?].
Qed.

Lemma index_inj files x y :
  x ∈ files → y ∈ files → index files x = index files y → x = y.
Proof.
  intros Hx%index_lookup Hy%index_lookup E. rewrite E in Hx. congruence.
Qed.

(** A group lists its files in the order of their first occurrence in
    the input. *)
Lemma sorted_by_index_ordered files v i j x y :
  (∀ z, z ∈ v → z ∈ files) →
  sorted_by_index files v !! i = Some x →
  sorted_by_index files v !! j = Some y →
  i < j → index files x < index files y.
Proof.
  intros Hv Hi Hj Hlt.
  assert (StronglySorted (index_le files) (sorted_by_index files v)) as Hs.
  { apply StronglySorted_merge_sort; apply _. }
  assert (NoDup (sorted_by_index files v)) as Hnd by apply sorted_by_index_NoDup.
  destruct (list_elem_of_split_length _ _ _ Hi) as (l1 & l2 & E & Hlen).
  rewrite E in Hs, Hj, Hnd.
  rewrite lookup_app_r in Hj by lia.
  destruct (j - length l1) as [|n] eqn:En; [lia|]. simpl in Hj.
  apply StronglySorted_app in Hs as (_ & _ & Hs).
  apply StronglySorted_cons in Hs as [Hall _].
  rewrite Forall_forall in Hall.
  assert (y ∈ l2) as Hy by (by eapply list_elem_of_lookup_2).
  specialize (Hall y Hy). unfold index_le in Hall.
  assert (index files x ≠ index files y); [|lia].
  intros Heq. apply index_inj in Heq.
  - subst y. apply NoDup_app in Hnd as (_ & _ & Hnd).
    apply NoDup_cons in Hnd as [Hnd _]. done.
  - apply Hv, (sorted_by_index_elem files). rewrite E. set_solver.
  - apply Hv, (sorted_by_index_elem files). rewrite E. set_solver.
Qed.

Lemma group_files_Some files gs :
  group_files files = Some gs ↔
  ∃ res, pass2 files (pass1 files) = Some res
         ∧ gs = map (λ kv, sorted_by_index files kv.2) res.
Proof.
  unfold group_files. destruct (pass2 files (pass1 files)) as [res|]; split.
  - intros [= <-]. eauto.
  - intros (r & [= <-] & ->). done.
  - done.
  - by intros (r & ? & _).
Qed.

Lemma in_group_member files (res : dict) i x :
  in_group (map (λ kv, sorted_by_index files kv.2) res) i x ↔ member res i x.
Proof.
  unfold in_group, member. change (map ?f ?l) with (f <$> l).
  rewrite list_lookup_fmap. split.
  - intros (g & Hg & Hx). destruct (res !! i) as [kv|]; [|done].
    simpl in Hg. inv Hg. exists kv. split; [done|]. by apply sorted_by_index_elem in Hx.
  - intros (kv & -> & Hx). eexists. split; [done|]. by apply sorted_by_index_elem.
Qed.

Lemma pass2_step_total res f :
  (is_append f = true → is_Some (compile (needle f))) →
  is_Some (pass2_step res f).
Proof.
  intros Hc. rewrite pass2_step_unfold. destruct (is_append f); [|eauto].
  pose proof (add_to_first_match_not_failed (needle f) f res (Hc eq_refl)).
  destruct (add_to_first_match (needle f) f res); [done|eauto..].
Qed.

Lemma pass2_total files res :
  Forall (λ f, is_append f = true → is_Some (compile (needle f))) files →
  is_Some (pass2 files res).
Proof.
  intros Hall. revert res. induction Hall as [|f files Hf _ IH]; intros res; simpl; [eauto|].
  destruct (pass2_step_total res f Hf) as [r ->]. apply IH.
Qed.

Lemma group_files_total files :
  Forall (λ f, is_append f = true → is_Some (compile (needle f))) files →
  is_Some (group_files files).
Proof.
  intros Hall. unfold group_files.
  destruct (pass2_total files (pass1 files) Hall) as [r ->]. eauto.
Qed.

(** C3, amended. For every input list that names no append file twice,
    the result of the Group Builder is a partition of the recognised
    files: every file with the extension of a base or of an append file
    is in exactly one group, a file with another or no extension is in
    none, no group lists a file twice and every listed file comes from
    the input. The builder answers whenever the patterns of the append
    files are in the modelled fragment of [re]. *)
Theorem group_files_partition files :
  NoDup (filter (λ x, is_append x = true) files) →
  (Forall (λ f, is_append f = true → is_Some (compile (needle f))) files →
   is_Some (group_files files))
  ∧ ∀ gs, group_files files = Some gs →
      (∀ f, f ∈ files → recognised f = true →
            ∃ i, in_group gs i f ∧ ∀ j, in_group gs j f → j = i)
      ∧ (∀ f, recognised f = false → ∀ i, ¬ in_group gs i f)
      ∧ (∀ g, g ∈ gs → NoDup g)
      ∧ (∀ i f, in_group gs i f → f ∈ files).
Proof.
  intros Hnd. split; [apply group_files_total|].
  intros gs (res & Hp & ->)%group_files_Some.
  destruct (round2_end files res Hp) as [HQ HU]. specialize (HU Hnd).
  split_and!.
  - intros f Hf Hr.
    assert (∃ i, member res i f) as [i Hi].
    { apply orb_true_iff in Hr as [Hb|Ha].
      - by apply (r2_base _ _ _ _ HQ).
      - by apply (r2_app _ _ _ _ HQ). }
    exists i. split; [by apply in_group_member|].
    intros j Hj%in_group_member. by eapply round2_unique.
  - intros f Hr i Hi%in_group_member. apply orb_false_iff in Hr as [Hb Ha].
    destruct (r2_mem _ _ _ _ HQ i f Hi) as [(? & _)|[? _]]; congruence.
  - intros g (kv & -> & _)%list_elem_of_fmap. apply sorted_by_index_NoDup.
  - intros i f Hi%in_group_member.
    by destruct (r2_mem _ _ _ _ HQ i f Hi) as [(_ & ? & _)|[_ ?]].
Qed.

(** *** Where the second round puts an append file *)

Lemma pass2_step_cases res f res' :
  pass2_step res f = Some res' →
  (is_append f = false ∧ res' = res)
  ∨ (is_append f = true ∧ ∃ i, grows f res i res' ∧
      ((∃ x, member res i x ∧ re_match (needle f) x = Some true
             ∧ ∀ j y, j < i → member res j y → re_match (needle f) y = Some false)
       ∨ ((∀ j y, member res j y → re_match (needle f) y = Some false)
          ∧ res'.*1 !! i = Some (key_of f)))).
Proof.
  rewrite pass2_step_unfold. destruct (is_append f); [|intros [= <-]; by left].
  intros Hs. right. split; [done|].
  destruct (add_to_first_match (needle f) f res) as [| |r] eqn:E; try discriminate.
  - inv Hs. destruct (dict_add_grows (key_of f) f res) as (i & Hg & Hk & _).
    exists i. split; [done|]. right. split; [|done].
    by apply (add_to_first_match_nomatch _ f).
  - inv Hs. apply add_to_first_match_matched in E as (i & k & v & Hl & -> & (x & Hx & Hm) & Hlt).
    exists i. split; [by apply grows_at|]. left. exists x. split_and!; [|done|done].
    by exists (k, v).
Qed.

Lemma pass2_split l1 f l2 res res' :
  pass2 (l1 ++ f :: l2) res = Some res' →
  ∃ rt rt', pass2 l1 res = Some rt ∧ pass2_step rt f = Some rt'
            ∧ pass2 l2 rt' = Some res'.
Proof.
  rewrite pass2_app. destruct (pass2 l1 res) as [rt|]; [|done]. simpl.
  destruct (pass2_step rt f) as [rt'|] eqn:E; [|done]. eauto.
Qed.

(** C1, amended. In a list that names no append file twice, an append
    file whose pattern matches a base file of the list is put into
    exactly one group, never one of its own: a group that holds a base
    file. It is the first group, in the order of creation, that holds a
    file the pattern matches among the base files and the append files
    listed earlier: the group holds such a file and no group before it
    does, so it comes no later than the group of the matching base
    file. *)
Theorem append_joins_first_matching_group l1 f l2 b gs :
  NoDup (filter (λ x, is_append x = true) (l1 ++ f :: l2)) →
  is_append f = true →
  b ∈ l1 ++ f :: l2 → is_base b = true →
  re_match (needle f) b = Some true →
  group_files (l1 ++ f :: l2) = Some gs →
  ∃ i, in_group gs i f
       ∧ (∀ j, in_group gs j f → j = i)
       ∧ (∃ x, in_group gs i x ∧ is_base x = true)
       ∧ (∃ x, in_group gs i x ∧ x ≠ f ∧ (is_base x = true ∨ x ∈ l1)
               ∧ re_match (needle f) x = Some true)
       ∧ (∀ j x, j < i → in_group gs j x → is_base x = true ∨ x ∈ l1 →
                 re_match (needle f) x = Some false)
       ∧ (∀ j, in_group gs j b → i ≤ j).
Proof.
  intros Hnd Hf Hb Hbb Hm (rf & Hp & ->)%group_files_Some.
  set (files := l1 ++ f :: l2) in *.
  destruct (round2_end files rf Hp) as [HQf HUf].
  specialize (HUf Hnd).
  destruct (pass2_split _ _ _ _ _ Hp) as (rt & rt' & Hp1 & Hs & Hp2).
  destruct (round2_run files [] (pass1 files) l1 rt (round2_start files))
    as [HQt _]; [|done|].
  { intros _ i j x Hax Hi _.
    destruct (r1_mem _ _ (round1_pass1 files) i x Hi) as (_ & Hbx & _).
    apply base_not_append in Hbx. congruence. }
  simpl in HQt.
  assert (f ∉ l1) as Hfl1.
  { unfold files in Hnd. rewrite filter_app, filter_cons_True in Hnd by done.
    apply NoDup_app in Hnd as (_ & Hdisj & _). intros Hin.
    apply (Hdisj f); [by apply list_elem_of_filter|left]. }
  destruct (r2_base _ _ _ _ HQt b Hb Hbb) as [jb Hjb].
  assert (jb < length (pass1 files)) as Hjb1.
  { destruct (r2_mem _ _ _ _ HQt jb b Hjb) as [(_ & _ & _ & ?)|[Ha _]]; [done|].
    apply base_not_append in Hbb. congruence. }
  assert (∀ j x, member rt j x → member rf j x) as Hmono.
  { intros j x Hx. eapply pass2_mono; [done|].
    apply pass2_step_grows in Hs as [[_ ->] | [_ [i Hg]]]; [done|].
    by eapply grows_member_mono. }
  assert (∀ j x, member rf j x → is_base x = true ∨ x ∈ l1 → member rt j x) as Hback.
  { intros j x Hx Hseen.
    assert (∃ j', member rt j' x) as [j' Hj'].
    { destruct (r2_mem _ _ _ _ HQf j x Hx) as [(Hbx & Hxf & _)|[Hax _]].
      - by apply (r2_base _ _ _ _ HQt).
      - destruct Hseen as [Hbx|Hx1].
        + apply base_not_append in Hbx. congruence.
        + by apply (r2_app _ _ _ _ HQt). }
    assert (j' = j) as <-; [|done].
    eapply (round2_unique _ _ _ _ _ _ _ HQf HUf); [by apply Hmono|done]. }
  apply pass2_step_cases in Hs as [[? _]|[_ (i & Hg & Hcase)]]; [congruence|].
  destruct Hcase as [(x & Hx & Hxm & Hlt) | [Hno _]].
  2:{ specialize (Hno jb b Hjb). congruence. }
  assert (i ≤ jb) as Hle.
  { destruct (decide (i ≤ jb)) as [|Hgt]; [done|].
    specialize (Hlt jb b ltac:(lia) Hjb). congruence. }
  assert (member rf i f) as Hif.
  { eapply pass2_mono; [done|]. by eapply grows_member_new. }
  exists i. split_and!.
  - by apply in_group_member.
  - intros j Hj%in_group_member.
    by eapply (round2_unique _ _ _ _ _ _ _ HQf HUf).
  - destruct (r2_first _ _ _ _ HQf i ltac:(lia)) as (y & Hy & Hby).
    exists y. split; [by apply in_group_member|done].
  - exists x. split_and!; [by apply in_group_member, Hmono| | |done].
    + intros ->. destruct (r2_mem _ _ _ _ HQt i f Hx) as [(Hbf & _)|[_ Hin]].
      * apply base_not_append in Hbf. congruence.
      * done.
    + destruct (r2_mem _ _ _ _ HQt i x Hx) as [(Hbx & _)|[_ Hin]]; [by left|by right].
  - intros j y Hj Hy%in_group_member Hseen. apply (Hlt j y Hj). by apply Hback.
  - intros j Hj%in_group_member.
    assert (jb = j) as <-; [|done].
    eapply (round2_unique _ _ _ _ _ _ _ HQf HUf); [by apply Hmono|done].
Qed.

(** *** Files that are filed under their own key *)

Lemma member_in_files files n1 done res i x :
  round2 files n1 done res → (∀ y, y ∈ done → y ∈ files) →
  member res i x → x ∈ files.
Proof.
  intros HQ Hd Hm. destruct (r2_mem _ _ _ _ HQ i x Hm) as [(_ & ? & _)|[_ ?]]; auto.
Qed.

Lemma pass2_keys_mono rest res res' i k :
  pass2 rest res = Some res' → res.*1 !! i = Some k → res'.*1 !! i = Some k.
Proof.
  revert res. induction rest as [|f rest IH]; intros res Hp Hk; simpl in Hp.
  - by inv Hp.
  - destruct (pass2_step res f) as [r|] eqn:E; [|done].
    apply (IH r Hp).
    apply pass2_step_grows in E as [[_ ->] | [_ [j Hg]]]; [done|].
    by eapply grows_key_stable.
Qed.

Lemma falls_through_spec l1 f l2 :
  falls_through l1 f l2 = true →
  is_append f = true
  ∧ (∀ x, x ∈ l1 ++ f :: l2 → is_base x = true → re_match (needle f) x = Some false)
  ∧ (∀ x, x ∈ l1 → is_append x = true → re_match (needle f) x = Some false).
Proof.
  unfold falls_through, unmatched.
  intros [[Ha Hb]%andb_true_iff Hl]%andb_true_iff.
  rewrite forallb_forall in Hb. rewrite forallb_forall in Hl.
  split_and!; [done| |].
  - intros x Hx%list_elem_of_In Hbx. specialize (Hb x Hx). rewrite Hbx in Hb.
    by apply bool_decide_eq_true in Hb.
  - intros x Hx%list_elem_of_In Hax. specialize (Hl x Hx). rewrite Hax in Hl.
    by apply bool_decide_eq_true in Hl.
Qed.

(** A file under its own key sits at the position of that key. *)
Lemma own_key_placed files res f :
  pass2 files (pass1 files) = Some res → under_own_key files f →
  ∃ i, member res i f ∧ res.*1 !! i = Some (key_of f).
Proof.
  intros Hp [Hf Hb | l1 l2 -> Hft].
  - destruct (round2_end files res Hp) as [HQ _].
    destruct (r2_base _ _ _ _ HQ f Hf Hb) as [i Hi]. exists i. split; [done|].
    destruct (r2_mem _ _ _ _ HQ i f Hi) as [(_ & _ & ? & _)|[Ha _]]; [done|].
    apply base_not_append in Hb. congruence.
  - set (files := l1 ++ f :: l2) in *.
    destruct (falls_through_spec _ _ _ Hft) as (Ha & Hbase & Hbefore).
    destruct (pass2_split _ _ _ _ _ Hp) as (rt & rt' & Hp1 & Hs & Hp2).
    destruct (round2_run files [] (pass1 files) l1 rt (round2_start files))
      as [HQt _]; [|done|].
    { intros _ i j x Hax Hi _.
      destruct (r1_mem _ _ (round1_pass1 files) i x Hi) as (_ & Hbx & _).
      apply base_not_append in Hbx. congruence. }
    simpl in HQt.
    apply pass2_step_cases in Hs as [[? _]|[_ (i & Hg & Hcase)]]; [congruence|].
    destruct Hcase as [(x & Hx & Hxm & _) | [_ Hk]].
    + destruct (r2_mem _ _ _ _ HQt i x Hx) as [(Hbx & Hxf & _)|[Hax Hx1]].
      * specialize (Hbase x Hxf Hbx). congruence.
      * specialize (Hbefore x Hx1 Hax). congruence.
    + exists i. split.
      * eapply pass2_mono; [done|]. by eapply grows_member_new.
      * by eapply pass2_keys_mono.
Qed.

Lemma split_no_sep c s : contains c s = false → split c s = [s].
Proof.
  induction s as [|a s IH]; simpl; [done|].
  intros [Ha Hs]%orb_false_iff. rewrite Ha, (IH Hs). done.
Qed.

Lemma key_of_plain f : plain_name f = true → key_of f = "".
Proof.
  unfold plain_name, key_of, filename_key. intros Hp%negb_true_iff.
  rewrite (split_no_sep _ _ Hp). reflexivity.
Qed.

(** C10. A base file whose base name has no underscore gets the empty
    string as its key, and so does an append file with such a name that
    takes the fallback of the second round; any two such files of one
    list, whatever they are called otherwise, end up in one and the same
    group. *)
Theorem underscore_free_names_share_a_group files gs f g :
  group_files files = Some gs →
  under_own_key files f → under_own_key files g →
  plain_name f = true → plain_name g = true →
  key_of f = "" ∧ key_of g = ""
  ∧ ∃ i, in_group gs i f ∧ in_group gs i g.
Proof.
  intros (res & Hp & ->)%group_files_Some Hf Hg Hpf Hpg.
  pose proof (key_of_plain f Hpf) as Ef. pose proof (key_of_plain g Hpg) as Eg.
  split_and!; [done..|].
  destruct (round2_end files res Hp) as [HQ _].
  destruct (own_key_placed files res f Hp Hf) as (i & Hif & Hki).
  destruct (own_key_placed files res g Hp Hg) as (j & Hjg & Hkj).
  rewrite Ef in Hki. rewrite Eg in Hkj.
  assert (i = j) as <-.
  { eapply NoDup_lookup; [apply (r2_nodup _ _ _ _ HQ)|done..]. }
  exists i. split; by apply in_group_member.
Qed.

(** *** Lists on which the order of the input does not matter *)

Lemma unambiguous_spec files f :
  unambiguous files = true → f ∈ files → is_append f = true →
  is_Some (compile (needle f))
  ∧ ∀ x, x ∈ files → recognised x = true → re_match (needle f) x = Some true →
         target files x = target files f.
Proof.
  unfold unambiguous. rewrite forallb_forall. intros Hall Hf%list_elem_of_In Ha.
  specialize (Hall f Hf). rewrite Ha in Hall. simpl in Hall.
  apply andb_true_iff in Hall as [Hc Hx]. split.
  - unfold compiles in Hc. destruct (compile (needle f)); [eauto|done].
  - intros x Hxf%list_elem_of_In Hr Hm. rewrite forallb_forall in Hx.
    specialize (Hx x Hxf). unfold matchesb in Hx.
    rewrite Hr, (bool_decide_eq_true_2 _ Hm) in Hx. simpl in Hx.
    by apply bool_decide_eq_true in Hx.
Qed.

Lemma unambiguous_intro files :
  (∀ f, f ∈ files → is_append f = true →
     is_Some (compile (needle f))
     ∧ ∀ x, x ∈ files → recognised x = true → re_match (needle f) x = Some true →
            target files x = target files f) →
  unambiguous files = true.
Proof.
  intros H. unfold unambiguous. rewrite forallb_forall. intros f Hf%list_elem_of_In.
  destruct (is_append f) eqn:Ha; [simpl|done].
  destruct (H f Hf Ha) as [[r Hr] Hx]. unfold compiles. rewrite Hr. simpl.
  rewrite forallb_forall. intros x Hxf%list_elem_of_In. unfold matchesb.
  destruct (recognised x) eqn:Hrx; [simpl|done].
  destruct (decide (re_match (needle f) x = Some true)) as [Hm|Hm].
  - rewrite (bool_decide_eq_true_2 _ Hm). simpl.
    by rewrite (bool_decide_eq_true_2 _ (Hx x Hxf Hrx Hm)).
  - by rewrite (bool_decide_eq_false_2 _ Hm).
Qed.

Lemma target_base files b : is_base b = true → target files b = key_of b.
Proof. intros Hb. unfold target. by rewrite Hb. Qed.

Lemma recognised_base b : is_base b = true → recognised b = true.
Proof. intros Hb. unfold recognised. by rewrite Hb. Qed.

Lemma recognised_append f : is_append f = true → recognised f = true.
Proof. intros Ha. unfold recognised. rewrite Ha. apply orb_true_r. Qed.

Lemma target_perm files1 files2 f :
  files1 ≡ₚ files2 → unambiguous files1 = true →
  f ∈ files1 → recognised f = true →
  target files1 f = target files2 f.
Proof.
  intros Hperm HU Hf Hr. unfold target at 2. destruct (is_base f) eqn:Hb.
  { unfold target. by rewrite Hb. }
  simpl in Hr. unfold recognised in Hr. rewrite Hb in Hr. simpl in Hr.
  destruct (find _ files2) as [b2|] eqn:E2.
  - apply find_some in E2 as [Hb2%list_elem_of_In [Hbb Hm]%andb_true_iff].
    apply bool_decide_eq_true in Hm. rewrite <- Hperm in Hb2.
    destruct (unambiguous_spec _ _ HU Hf Hr) as [_ Hx].
    rewrite <- (Hx b2 Hb2 (recognised_base _ Hbb) Hm). by apply target_base.
  - unfold target. rewrite Hb.
    destruct (find _ files1) as [b1|] eqn:E1; [|done].
    apply find_some in E1 as [Hb1%list_elem_of_In Hp]. rewrite Hperm in Hb1.
    apply list_elem_of_In in Hb1.
    pose proof (find_none _ _ E2 b1 Hb1) as Hn. simpl in Hn. congruence.
Qed.

Lemma unambiguous_perm files1 files2 :
  files1 ≡ₚ files2 → unambiguous files1 = true → unambiguous files2 = true.
Proof.
  intros Hperm HU. apply unambiguous_intro. intros f Hf Ha.
  rewrite <- Hperm in Hf.
  destruct (unambiguous_spec _ _ HU Hf Ha) as [Hc Hx]. split; [done|].
  intros x Hxf Hrx Hm. rewrite <- Hperm in Hxf.
  rewrite <- (target_perm files1 files2 f Hperm HU Hf (recognised_append _ Ha)).
  rewrite <- (target_perm files1 files2 x Hperm HU Hxf Hrx).
  by apply Hx.
Qed.

Lemma unambiguous_total files :
  unambiguous files = true → is_Some (group_files files).
Proof.
  intros HU. apply group_files_total. apply Forall_forall. intros f Hf Ha.
  by destruct (unambiguous_spec _ _ HU Hf Ha).
Qed.

Lemma on_target_step files n1 done res f res' :
  unambiguous files = true → f ∈ files → (∀ y, y ∈ done → y ∈ files) →
  round2 files n1 done res → on_target files res →
  pass2_step res f = Some res' → on_target files res'.
Proof.
  intros HU Hf Hd HQ HT [[_ ->]|[Ha (i & Hg & Hcase)]]%pass2_step_cases; [done|].
  intros j x [Hm | [-> ->]]%(grows_member _ _ _ _ _ _ Hg).
  - eapply grows_key_stable; [done|]. by apply HT.
  - destruct (unambiguous_spec _ _ HU Hf Ha) as [_ Hx].
    destruct Hcase as [(y & Hy & Hym & _) | [Hno Hk]].
    + assert (y ∈ files) as Hyf by (by eapply member_in_files).
      assert (recognised y = true) as Hry.
      { destruct (r2_mem _ _ _ _ HQ i y Hy) as [(Hby & _)|[Hay _]].
        - by apply recognised_base.
        - by apply recognised_append. }
      eapply grows_key_stable; [done|].
      rewrite <- (Hx y Hyf Hry Hym). by apply HT.
    + rewrite Hk. f_equal. unfold target.
      destruct (is_base f) eqn:Hb; [done|].
      destruct (find _ files) as [b|] eqn:E; [|done].
      apply find_some in E as [Hbf%list_elem_of_In [Hbb Hm]%andb_true_iff].
      apply bool_decide_eq_true in Hm.
      destruct (r2_base _ _ _ _ HQ b Hbf Hbb) as [jb Hjb].
      specialize (Hno jb b Hjb). congruence.
Qed.

Lemma nonempty_step res f res' :
  nonempty res → pass2_step res f = Some res' → nonempty res'.
Proof.
  intros Hne [[_ ->] | [_ [i Hg]]]%pass2_step_grows; [done|].
  intros j Hj. destruct (decide (j < length res)) as [Hlt|Hge].
  - destruct (Hne j Hlt) as [x Hx]. exists x. by eapply grows_member_mono.
  - exists f. apply (grows_member _ _ _ _ _ _ Hg). right. split; [|done].
    destruct (grows_keys _ _ _ _ Hg) as [E | (k & _ & -> & E)].
    + apply (f_equal length) in E. rewrite !length_fmap in E. lia.
    + apply (f_equal length) in E.
      rewrite length_app, !length_fmap in E. simpl in E. lia.
Qed.

Lemma on_target_end files res :
  unambiguous files = true →
  pass2 files (pass1 files) = Some res →
  on_target files res ∧ nonempty res.
Proof.
  intros HU Hp.
  enough (∀ rest done r r',
    (∀ y, y ∈ done ++ rest → y ∈ files) →
    round2 files (length (pass1 files)) done r →
    on_target files r ∧ nonempty r →
    pass2 rest r = Some r' → on_target files r' ∧ nonempty r') as Hgen.
  { apply (Hgen files [] (pass1 files) res); [done|apply round2_start| |done].
    split.
    - intros i x Hm.
      destruct (r1_mem _ _ (round1_pass1 files) i x Hm) as (_ & Hb & ->).
      unfold target. by rewrite Hb.
    - intros i Hi. by apply (r1_first _ _ (round1_pass1 files)). }
  clear Hp. induction rest as [|f rest IH]; intros done r r' Hsub HQ [HT Hne] Hp;
    simpl in Hp.
  - by inv Hp.
  - destruct (pass2_step r f) as [r1|] eqn:E; [|done].
    apply (IH (done ++ [f]) r1 r'); [| | |done].
    + intros y Hy. apply Hsub. rewrite <- app_assoc in Hy. done.
    + by eapply round2_step.
    + split; [|by eapply nonempty_step].
      eapply on_target_step; [done| | |done|done|done].
      * apply Hsub. set_solver.
      * intros y Hy. apply Hsub. set_solver.
Qed.

(** Under [unambiguous] the groups are the classes of [target]. *)
Lemma groups_by_target files res :
  unambiguous files = true →
  pass2 files (pass1 files) = Some res →
  NoDup res.*1
  ∧ ∀ i k v, res !! i = Some (k, v) →
      (∃ x, x ∈ v)
      ∧ ∀ x, x ∈ v ↔ (x ∈ files ∧ recognised x = true ∧ target files x = k).
Proof.
  intros HU Hp. destruct (round2_end files res Hp) as [HQ _].
  destruct (on_target_end files res HU Hp) as [HT Hne].
  split; [apply (r2_nodup _ _ _ _ HQ)|].
  intros i k v Hi.
  assert (res.*1 !! i = Some k) as Hk by (by rewrite list_lookup_fmap, Hi).
  split.
  - destruct (Hne i) as (x & kv & Hkv & Hx); [by eapply lookup_lt_Some|].
    rewrite Hi in Hkv. inv Hkv. by exists x.
  - intros x. split.
    + intros Hx. assert (member res i x) as Hm by (by exists (k, v)).
      split_and!.
      * by eapply member_in_files.
      * unfold recognised.
        destruct (r2_mem _ _ _ _ HQ i x Hm) as [(-> & _)|[-> _]];
          [done|apply orb_true_r].
      * specialize (HT i x Hm). congruence.
    + intros (Hxf & Hr & Ht).
      assert (∃ j, member res j x) as [j Hj].
      { apply orb_true_iff in Hr as [Hb|Ha].
        - by apply (r2_base _ _ _ _ HQ).
        - by apply (r2_app _ _ _ _ HQ). }
      assert (j = i) as ->.
      { eapply NoDup_lookup; [apply (r2_nodup _ _ _ _ HQ)| |done].
        rewrite (HT j x Hj). by rewrite Ht. }
      destruct Hj as (kv & Hkv & Hx). rewrite Hi in Hkv. by inv Hkv.
Qed.

Lemma same_groups_one_way files1 files2 res1 res2 :
  files1 ≡ₚ files2 → unambiguous files1 = true →
  pass2 files1 (pass1 files1) = Some res1 →
  pass2 files2 (pass1 files2) = Some res2 →
  ∀ g1, g1 ∈ map (λ kv, sorted_by_index files1 kv.2) res1 →
    ∃ g2, g2 ∈ map (λ kv, sorted_by_index files2 kv.2) res2 ∧ g1 ≡ₚ g2.
Proof.
  intros Hperm HU1 Hp1 Hp2 g1 Hg1.
  pose proof (unambiguous_perm _ _ Hperm HU1) as HU2.
  destruct (groups_by_target files1 res1 HU1 Hp1) as [Hnd1 H1].
  destruct (groups_by_target files2 res2 HU2 Hp2) as [Hnd2 H2].
  change (map ?f ?l) with (f <$> l) in *.
  apply list_elem_of_fmap in Hg1 as ([k v1] & -> & [i Hi]%list_elem_of_lookup_1).
  simpl. destruct (H1 i k v1 Hi) as [[x Hx] Hv1].
  destruct (proj1 (Hv1 x) Hx) as (Hxf & Hr & Ht).
  destruct (round2_end files2 res2 Hp2) as [HQ2 _].
  assert (∃ j, member res2 j x) as (j & [k2 v2] & Hj & Hx2).
  { rewrite Hperm in Hxf. apply orb_true_iff in Hr as [Hb|Ha].
    - by apply (r2_base _ _ _ _ HQ2).
    - by apply (r2_app _ _ _ _ HQ2). }
  simpl in Hx2. destruct (H2 j k2 v2 Hj) as [_ Hv2].
  destruct (proj1 (Hv2 x) Hx2) as (_ & _ & Ht2).
  rewrite <- (target_perm files1 files2 x Hperm HU1 Hxf Hr), Ht in Ht2. subst k2.
  exists (sorted_by_index files2 v2). split.
  - apply list_elem_of_fmap. exists (k, v2). split; [done|].
    by eapply list_elem_of_lookup_2.
  - apply NoDup_Permutation; [apply sorted_by_index_NoDup..|].
    intros y. rewrite !sorted_by_index_elem, Hv1, Hv2.
    split; intros (Hy & Hry & Hty).
    + split_and!; [by rewrite <- Hperm|done|].
      by rewrite <- (target_perm files1 files2 y Hperm HU1 Hy Hry).
    + rewrite <- Hperm in Hy. split_and!; [done..|].
      by rewrite (target_perm files1 files2 y Hperm HU1 Hy Hry).
Qed.

Lemma group_files_in_input_order files gs :
  group_files files = Some gs → in_input_order files gs.
Proof.
  intros (res & Hp & ->)%group_files_Some.
  destruct (round2_end files res Hp) as [HQ _].
  intros g Hg. change (map ?f ?l) with (f <$> l) in Hg.
  apply list_elem_of_fmap in Hg as ([k v] & -> & [n Hn]%list_elem_of_lookup_1).
  simpl. intros i j x y. apply sorted_by_index_ordered.
  intros z Hz. eapply member_in_files; [done|done|]. by exists (k, v).
Qed.

(** C2, amended. Take a list in which the pattern of every append file
    matches, among the base and append files of the list, only files
    bound for one group, the one the append file is bound for itself
    (the group of the key of the base files it matches, or of its own
    key when it matches none), and take any reordering of that list. The
    Group Builder answers on both, the groups have the same members, and
    in each result every group lists its files in the order of the list
    it was given. Other append files and files with another extension
    may be matched as well. *)
Theorem unambiguous_grouping_is_order_stable files1 files2 :
  unambiguous files1 = true → files1 ≡ₚ files2 →
  ∃ gs1 gs2,
    group_files files1 = Some gs1 ∧ group_files files2 = Some gs2
    ∧ (∀ g1, g1 ∈ gs1 → ∃ g2, g2 ∈ gs2 ∧ g1 ≡ₚ g2)
    ∧ (∀ g2, g2 ∈ gs2 → ∃ g1, g1 ∈ gs1 ∧ g1 ≡ₚ g2)
    ∧ in_input_order files1 gs1 ∧ in_input_order files2 gs2.
Proof.
  intros HU1 Hperm. pose proof (unambiguous_perm _ _ Hperm HU1) as HU2.
  destruct (unambiguous_total _ HU1) as [gs1 Hgs1].
  destruct (unambiguous_total _ HU2) as [gs2 Hgs2].
  exists gs1, gs2. split_and!; [done|done| | |by apply group_files_in_input_order..].
  - destruct (proj1 (group_files_Some _ _) Hgs1) as (res1 & Hp1 & ->).
    destruct (proj1 (group_files_Some _ _) Hgs2) as (res2 & Hp2 & ->).
    by apply same_groups_one_way.
  - destruct (proj1 (group_files_Some _ _) Hgs1) as (res1 & Hp1 & ->).
    destruct (proj1 (group_files_Some _ _) Hgs2) as (res2 & Hp2 & ->).
    intros g2 Hg2.
    destruct (same_groups_one_way files2 files1 res2 res1 (symmetry Hperm) HU2 Hp2 Hp1 g2 Hg2)
      as (g1 & Hg1 & Hpm).
    exists g1. split; [done|by symmetry].
Qed.

(** *** The theorems at concrete lists *)

Lemma append_joins_first_matching_group_witness :
  ∃ i, in_group [["d/a_1.0.bb"; "d/a_1.0.bbappend"]; ["d/b_2.0.bb"]] i "d/a_1.0.bbappend"
       ∧ i ≤ 0.
Proof.
  destruct (append_joins_first_matching_group
              ["d/a_1.0.bb"] "d/a_1.0.bbappend" ["d/b_2.0.bb"] "d/a_1.0.bb"
              [["d/a_1.0.bb"; "d/a_1.0.bbappend"]; ["d/b_2.0.bb"]])
    as (i & Hi & _ & _ & _ & _ & Hle).
  - by_evaluation.
  - vm_compute. reflexivity.
  - by_evaluation.
  - vm_compute. reflexivity.
  - vm_compute. reflexivity.
  - vm_compute. reflexivity.
  - exists i. split; [exact Hi|]. apply Hle. exists ["d/a_1.0.bb"; "d/a_1.0.bbappend"].
    split; [reflexivity|]. by_evaluation.
Defined.

Lemma append_not_in_group_of_matching_base :
  is_append "r/foo_1.bbappend" = true
  ∧ is_base "r/foo_1.bb" = true
  ∧ "r/foo_1.bb" ∈ rc_first
  ∧ re_match (needle "r/foo_1.bbappend") "r/foo_1.bb" = Some true
  ∧ group_files rc_first
    = Some [["r/foo_1_rc.bb"; "r/foo_1.bbappend"]; ["r/foo_1.bb"]]
  ∧ ¬ ∃ g, g ∈ [["r/foo_1_rc.bb"; "r/foo_1.bbappend"]; ["r/foo_1.bb"]]
           ∧ "r/foo_1.bbappend" ∈ g ∧ "r/foo_1.bb" ∈ g.
Proof.
  split_and!;
    [by vm_compute|by vm_compute|by_evaluation|by vm_compute|by vm_compute|].
  intros (g & Hg & Hf & Hb).
  apply elem_of_cons in Hg as [->|Hg].
  - apply elem_of_cons in Hb as [?|Hb]; [done|].
    apply elem_of_cons in Hb as [?|Hb]; [done|]. by apply elem_of_nil in Hb.
  - apply list_elem_of_singleton in Hg as ->.
    apply list_elem_of_singleton in Hf. done.
Qed.

Lemma grouping_depends_on_order :
  NoDup rc_first ∧ rc_first ≡ₚ rc_second
  ∧ group_files rc_first
    = Some [["r/foo_1_rc.bb"; "r/foo_1.bbappend"]; ["r/foo_1.bb"]]
  ∧ group_files rc_second
    = Some [["r/foo_1.bb"; "r/foo_1.bbappend"]; ["r/foo_1_rc.bb"]]
  ∧ ¬ ∀ g1, g1 ∈ [["r/foo_1_rc.bb"; "r/foo_1.bbappend"]; ["r/foo_1.bb"]] →
        ∃ g2, g2 ∈ [["r/foo_1.bb"; "r/foo_1.bbappend"]; ["r/foo_1_rc.bb"]] ∧ g1 ≡ₚ g2.
Proof.
  split_and!.
  - by_evaluation.
  - unfold rc_first, rc_second. apply perm_swap.
  - by vm_compute.
  - by vm_compute.
  - intros H. destruct (H ["r/foo_1.bb"]) as (g2 & Hg2 & Hp); [set_solver|].
    apply elem_of_cons in Hg2 as [->|Hg2].
    + apply Permutation_length in Hp. done.
    + apply list_elem_of_singleton in Hg2 as ->.
      apply Permutation_singleton_l in Hp. done.
Qed.

Lemma unambiguous_grouping_is_order_stable_witness :
  re_match (needle "l1/a_1.bbappend") "l2/a_1.bbappend" = Some true
  ∧ re_match (needle "l1/a_1.bbappend") "d/a_1.inc" = Some true
  ∧ ∃ gs1 gs2,
      group_files two_layers = Some gs1
      ∧ group_files (reverse two_layers) = Some gs2
      ∧ (∀ g1, g1 ∈ gs1 → ∃ g2, g2 ∈ gs2 ∧ g1 ≡ₚ g2)
      ∧ (∀ g2, g2 ∈ gs2 → ∃ g1, g1 ∈ gs1 ∧ g1 ≡ₚ g2)
      ∧ in_input_order two_layers gs1
      ∧ in_input_order (reverse two_layers) gs2.
Proof.
  split; [vm_compute; reflexivity|]. split; [vm_compute; reflexivity|].
  apply unambiguous_grouping_is_order_stable.
  - vm_compute. reflexivity.
  - symmetry. apply reverse_Permutation.
Defined.

Lemma repeated_append_in_two_groups :
  group_files append_twice
  = Some [["d/a_1.bb"; "d/x_1.bbappend"; "q/x_1/a_1.bbappend"]; ["d/x_1.bbappend"]]
  ∧ "d/x_1.bbappend" ∈ append_twice
  ∧ recognised "d/x_1.bbappend" = true
  ∧ ¬ ∃ i, in_group [["d/a_1.bb"; "d/x_1.bbappend"; "q/x_1/a_1.bbappend"];
                     ["d/x_1.bbappend"]] i "d/x_1.bbappend"
           ∧ ∀ j, in_group [["d/a_1.bb"; "d/x_1.bbappend"; "q/x_1/a_1.bbappend"];
                            ["d/x_1.bbappend"]] j "d/x_1.bbappend" → j = i.
Proof.
  split_and!; [by vm_compute| |by vm_compute|].
  - by_evaluation.
  - intros (i & _ & Hu).
    assert (0 = i) as <-.
    { apply Hu. eexists. split; [reflexivity|]. set_solver. }
    assert (1 = 0) as Habs; [|done].
    apply Hu. eexists. split; [reflexivity|]. set_solver.
Qed.

Lemma group_files_partition_witness :
  is_Some (group_files recipe_and_append)
  ∧ ∃ i, in_group [["d/a_1.0.bb"; "d/a_1.0.bbappend"]; ["d/b_2.0.bb"]] i "d/a_1.0.bbappend".
Proof.
  destruct (group_files_partition recipe_and_append) as [Htot Hpart].
  - by_evaluation.
  - split.
    + apply Htot. by_evaluation.
    + destruct (Hpart [["d/a_1.0.bb"; "d/a_1.0.bbappend"]; ["d/b_2.0.bb"]])
        as (Hex & _); [vm_compute; reflexivity|].
      destruct (Hex "d/a_1.0.bbappend") as (i & Hi & _).
      * by_evaluation.
      * vm_compute. reflexivity.
      * exists i. exact Hi.
Defined.

Lemma underscore_free_names_share_a_group_witness :
  key_of "d/zlib.bb" = "" ∧ key_of "f/linux.bbappend" = ""
  ∧ ∃ i, in_group [["d/zlib.bb"; "e/busybox.bb"; "f/linux.bbappend"]] i "d/zlib.bb"
         ∧ in_group [["d/zlib.bb"; "e/busybox.bb"; "f/linux.bbappend"]] i "f/linux.bbappend".
Proof.
  apply (underscore_free_names_share_a_group plain_names).
  - vm_compute. reflexivity.
  - apply own_key_base; [by_evaluation|vm_compute; reflexivity].
  - apply (own_key_fallback plain_names "f/linux.bbappend"
             ["d/zlib.bb"; "e/busybox.bb"] []); vm_compute; reflexivity.
  - vm_compute. reflexivity.
  - vm_compute. reflexivity.
Defined.

End GroupingFacts.

(** ** The orchestration *)

Module PipelineFacts.
Import PyStr Pipeline.

(** *** The monad *)

Lemma bind_val {A B} (m : M A) (k : A → M B) w a w' :
  m w = (Val a, w') → bind m k w = k a w'.
Proof. unfold bind. by intros ->. Qed.

Lemma after_nil w : after w [] = w.
Proof. destruct w. unfold after. simpl. by rewrite app_nil_r. Qed.

Lemma after_after w evs1 evs2 : after (after w evs1) evs2 = after w (evs1 ++ evs2).
Proof. unfold after. simpl. by rewrite app_assoc. Qed.

Lemma emit_after ev w : emit ev w = (Val tt, after w [ev]).
Proof. done. Qed.

Lemma unless_emit b ev w :
  unless b (emit ev) w = (Val tt, after w (if b then [] else [ev])).
Proof. destruct b; simpl; [|done]. unfold ret. by rewrite after_nil. Qed.

(** *** Traces with [fix] before [check] *)

Lemma fix_first_app evs1 evs2 :
  fix_first evs1 → fix_first evs2 → fix_first (evs1 ++ evs2).
Proof.
  induction 1 as [|ids f rest _ IH|ev rest Hev _ IH]; intros H2; simpl.
  - done.
  - apply fix_first_pair. by apply IH.
  - apply fix_first_other; [done|]. by apply IH.
Qed.

Lemma fix_first_no_check_head ids f rest : ¬ fix_first (CallCheck ids f :: rest).
Proof. inversion 1 as [| |ev r Hev]; subst. by eapply Hev. Qed.

(** In such a trace every [check] call has the [fix] call of the same
    rule on the same file directly before it. *)
Lemma fix_first_spec evs :
  fix_first evs →
  ∀ pre ids f post, evs = pre ++ CallCheck ids f :: post →
    ∃ pre', pre = pre' ++ [CallFix ids f].
Proof.
  induction 1 as [|ids f rest Hrest IH|ev rest Hev Hrest IH]; intros pre ids' f' post E.
  - by destruct pre.
  - destruct pre as [|e1 [|e2 pre]]; simpl in E.
    + discriminate.
    + inv E. by exists [].
    + inv E. destruct (IH pre ids' f' post eq_refl) as [pre' ->].
      by exists (CallFix ids f :: CallCheck ids f :: pre').
  - destruct pre as [|e1 pre]; simpl in E.
    + inv E. by destruct (Hev ids' f').
    + inv E. destruct pre as [|e2 pre].
      * simpl in Hrest. by apply fix_first_no_check_head in Hrest.
      * destruct (IH (e2 :: pre) ids' f' post eq_refl) as [pre' E'].
        exists (e1 :: pre'). simpl. by rewrite E'.
Qed.

(** *** The execution loop *)

Section loop.
Context `{Collaborators}.
Variable a : args.

Lemma run_rule_fix_mode f r s issues fixedfiles w :
  fix_mode a = true → applicable f r = true →
  run_rule a f r (s, issues, fixedfiles) w =
    match r_fix r (fs w) f s with
    | Exc e => (Exc e, after w [CallFix (GetIDs r) f])
    | Val xs =>
        match r_check r (fs w) f xs.2 with
        | Exc e =>
            (Exc e, after w [CallFix (GetIDs r) f; CallCheck (GetIDs r) f])
        | Val ys =>
            (Val (ys.2, issues ++ ys.1, fixedfiles ++ xs.1),
             after w [CallFix (GetIDs r) f; CallCheck (GetIDs r) f])
        end
    end.
Proof.
  intros Hfix Happ. unfold run_rule, fix_part, check_part. rewrite Happ, Hfix.
  unfold bind, emit, get_fs, lift, ret, after. simpl.
  destruct (r_fix r (fs w) f s) as [xs|e]; simpl; [|done].
  destruct (r_check r (fs w) f xs.2) as [ys|e]; simpl; by rewrite <- app_assoc.
Qed.

Lemma run_rule_skip f r st w :
  applicable f r = false → run_rule a f r st w = (Val st, w).
Proof.
  intros Happ. unfold run_rule. destruct st as [[s issues] fixedfiles].
  by rewrite Happ.
Qed.

Lemma run_rule_trace f r st w :
  fix_mode a = true →
  ∃ evs, (run_rule a f r st w).2 = after w evs ∧ fix_first evs.
Proof.
  intros Hfix. destruct st as [[s issues] fixedfiles].
  destruct (applicable f r) eqn:Happ.
  - rewrite run_rule_fix_mode by done.
    destruct (r_fix r (fs w) f s) as [xs|e]; simpl.
    + exists [CallFix (GetIDs r) f; CallCheck (GetIDs r) f]. split.
      * by destruct (r_check r (fs w) f xs.2).
      * apply fix_first_pair, fix_first_nil.
    + exists [CallFix (GetIDs r) f]. split; [done|].
      apply fix_first_other; [done|apply fix_first_nil].
  - rewrite run_rule_skip by done. exists []. split; [|apply fix_first_nil].
    simpl. by rewrite after_nil.
Qed.

Lemma run_rules_trace f rules st w :
  fix_mode a = true →
  ∃ evs, (run_rules a f rules st w).2 = after w evs ∧ fix_first evs.
Proof.
  intros Hfix. revert st w. induction rules as [|r rules IH]; intros st w; simpl.
  - exists []. split; [|apply fix_first_nil]. unfold ret. simpl. by rewrite after_nil.
  - destruct (run_rule_trace f r st w Hfix) as (evs1 & E1 & H1).
    unfold bind. destruct (run_rule a f r st w) as [[st'|e] w1]; simpl in E1; subst w1.
    + destruct (IH st' (after w evs1)) as (evs2 & E2 & H2).
      exists (evs1 ++ evs2). split; [|by apply fix_first_app].
      by rewrite E2, after_after.
    + by exists evs1.
Qed.

Lemma check_files_trace rules index total _files st w :
  fix_mode a = true →
  ∃ evs, (check_files a rules index total _files st w).2 = after w evs ∧ fix_first evs.
Proof.
  intros Hfix. revert index st w.
  induction _files as [|f rest IH]; intros index st w; simpl.
  - exists []. split; [|apply fix_first_nil]. unfold ret. simpl. by rewrite after_nil.
  - destruct (run_rules_trace f rules st w Hfix) as (evs1 & E1 & H1).
    unfold bind at 1.
    destruct (run_rules a f rules st w) as [[st'|e] w1]; simpl in E1; subst w1.
    + unfold bind. rewrite unless_emit.
      destruct (IH (S index) st' (after (after w evs1)
                 (if quiet a then []
                  else [Print (pretty index +:+ "/" +:+ pretty total +:+ " files checked")])))
        as (evs3 & E3 & H3).
      eexists. split.
      * rewrite E3, !after_after. reflexivity.
      * apply fix_first_app; [done|]. apply fix_first_app; [|done].
        destruct (quiet a); [apply fix_first_nil|].
        apply fix_first_other; [done|apply fix_first_nil].
    + by exists evs1.
Qed.

(** The loop over a list of files, or of rules, in two parts. *)
Lemma run_rules_app f rules1 rules2 st w :
  run_rules a f (rules1 ++ rules2) st w
  = bind (run_rules a f rules1 st) (λ st1, run_rules a f rules2 st1) w.
Proof.
  revert st w. induction rules1 as [|r rules1 IH]; intros st w; simpl; [reflexivity|].
  unfold bind. destruct (run_rule a f r st w) as [[st1|e] w1]; [|done].
  exact (IH st1 w1).
Qed.

Lemma check_files_app rules index total files1 files2 st w :
  check_files a rules index total (files1 ++ files2) st w
  = bind (check_files a rules index total files1 st)
      (λ st1, check_files a rules (index + length files1) total files2 st1) w.
Proof.
  revert index st w. induction files1 as [|f files1 IH]; intros index st w; simpl.
  - unfold bind, ret. by rewrite Nat.add_0_r.
  - replace (index + S (length files1)) with (S index + length files1) by lia.
    unfold bind. destruct (run_rules a f rules st w) as [[st1|e] w1]; [|done].
    destruct (unless (quiet a) _ w1) as [[[]|e] w2]; [|done].
    exact (IH (S index) st1 w2).
Qed.

(** The calls of a loop that comes to its end. *)
Lemma run_rule_calls f r st w st' w' :
  fix_mode a = true →
  run_rule a f r st w = (Val st', w') →
  w' = after w (fix_then_check f [r]).
Proof.
  intros Hfix. destruct st as [[s issues] fixedfiles].
  destruct (applicable f r) eqn:Happ.
  - rewrite run_rule_fix_mode by done.
    destruct (r_fix r (fs w) f s) as [xs|e]; [|done].
    destruct (r_check r (fs w) f xs.2) as [ys|e]; [|done]. intros [= _ <-].
    unfold fix_then_check. simpl. by rewrite Happ.
  - rewrite run_rule_skip by done. intros [= _ <-].
    unfold fix_then_check. simpl. rewrite Happ. by rewrite after_nil.
Qed.

Lemma run_rules_calls f rules st w st' w' :
  fix_mode a = true →
  run_rules a f rules st w = (Val st', w') →
  w' = after w (fix_then_check f rules).
Proof.
  intros Hfix. revert st w. induction rules as [|r rules IH]; intros st w; simpl.
  - intros [= _ <-]. by rewrite after_nil.
  - unfold bind. destruct (run_rule a f r st w) as [[st1|e] w1] eqn:E; [|done].
    intros E2. rewrite (IH _ _ E2), (run_rule_calls _ _ _ _ _ _ Hfix E), after_after.
    f_equal. unfold fix_then_check. simpl. by rewrite app_nil_r.
Qed.

Lemma check_files_calls rules index total _files st w st' w' :
  fix_mode a = true →
  check_files a rules index total _files st w = (Val st', w') →
  w' = after w (loop_calls a rules index total _files).
Proof.
  intros Hfix. revert index st w.
  induction _files as [|f rest IH]; intros index st w; simpl.
  - intros [= _ <-]. by rewrite after_nil.
  - unfold bind at 1. destruct (run_rules a f rules st w) as [[st1|e] w1] eqn:E; [|done].
    unfold bind. rewrite unless_emit. intros E2.
    by rewrite (IH _ _ _ E2), (run_rules_calls _ _ _ _ _ _ Hfix E), !after_after.
Qed.

(** What is collected is only added to. *)
Lemma run_rule_grows f r (st st' : stash * list finding * list string) w w' :
  run_rule a f r st w = (Val st', w') →
  st.1.2 `prefix_of` st'.1.2 ∧ st.2 `prefix_of` st'.2.
Proof.
  unfold run_rule, fix_part, check_part. destruct st as [[s issues] fixedfiles].
  destruct (applicable f r); [|by intros [= <- _]].
  unfold bind, ret, emit, get_fs, lift. simpl.
  destruct (fix_mode a); simpl.
  - destruct (r_fix r (fs w) f s) as [xs|e]; [|done]. simpl.
    destruct (r_check r (fs w) f xs.2) as [ys|e]; [|done].
    intros [= <- _]. simpl. split; by apply prefix_app_r.
  - destruct (r_check r (fs w) f s) as [ys|e]; [|done].
    intros [= <- _]. simpl. split; [by apply prefix_app_r|done].
Qed.

Lemma run_rules_grows f rs (st st' : stash * list finding * list string) w w' :
  run_rules a f rs st w = (Val st', w') →
  st.1.2 `prefix_of` st'.1.2 ∧ st.2 `prefix_of` st'.2.
Proof.
  revert st w. induction rs as [|r rs IH]; intros st w; simpl.
  - by intros [= <- _].
  - unfold bind. destruct (run_rule a f r st w) as [[st1|e] w1] eqn:E; [|done].
    intros E2. destruct (run_rule_grows _ _ _ _ _ _ E) as [P1 P2].
    destruct (IH _ _ E2) as [Q1 Q2]. split; by etrans.
Qed.

Lemma check_files_grows rs index total _files
    (st st' : stash * list finding * list string) w w' :
  check_files a rs index total _files st w = (Val st', w') →
  st.1.2 `prefix_of` st'.1.2 ∧ st.2 `prefix_of` st'.2.
Proof.
  revert index st w. induction _files as [|f rest IH]; intros index st w; simpl.
  - by intros [= <- _].
  - unfold bind at 1. destruct (run_rules a f rs st w) as [[st1|e] w1] eqn:E; [|done].
    unfold bind. rewrite unless_emit. intros E2.
    destruct (run_rules_grows _ _ _ _ _ _ E) as [P1 P2].
    destruct (IH _ _ _ E2) as [Q1 Q2]. split; by etrans.
Qed.

(** A loop that comes to its end has run every rule on every file it
    applies to, on the state the loop had reached by then. *)
Lemma check_files_reaches rules index total fpre f fpost rpre r rpost st w st' w' :
  fix_mode a = true →
  rules = rpre ++ r :: rpost → applicable f r = true →
  check_files a rules index total (fpre ++ f :: fpost) st w = (Val st', w') →
  ∃ st1 w1 st0 w0 xs ys,
    check_files a rules index total fpre st w = (Val st1, w1)
    ∧ run_rules a f rpre st1 w1 = (Val st0, w0)
    ∧ r_fix r (fs w0) f st0.1.1 = Val xs
    ∧ r_check r (fs w0) f xs.2 = Val ys
    ∧ run_rule a f r st0 w0
      = (Val (ys.2, st0.1.2 ++ ys.1, st0.2 ++ xs.1),
         after w0 [CallFix (GetIDs r) f; CallCheck (GetIDs r) f])
    ∧ (st0.2 ++ xs.1) `prefix_of` st'.2
    ∧ (st0.1.2 ++ ys.1) `prefix_of` st'.1.2.
Proof.
  intros Hfix -> Happ E. rewrite check_files_app in E. unfold bind at 1 in E.
  destruct (check_files a _ index total fpre st w) as [[st1|e] w1] eqn:E1; [|done].
  change (check_files a ?rs ?i total (f :: fpost) st1 w1)
    with (bind (run_rules a f rs st1)
            (λ st2, bind (unless (quiet a)
                            (emit (Print (pretty i +:+ "/" +:+ pretty total
                                          +:+ " files checked"))))
                      (λ _, check_files a rs (S i) total fpost st2)) w1) in E.
  unfold bind at 1 in E. rewrite run_rules_app in E. unfold bind at 1 in E.
  destruct (run_rules a f rpre st1 w1) as [[st0|e] w0] eqn:E0; [|done].
  change (run_rules a f (r :: rpost) st0 w0)
    with (bind (run_rule a f r st0) (λ st2, run_rules a f rpost st2) w0) in E.
  unfold bind in E.
  destruct st0 as [[s issues] fixedfiles].
  pose proof (run_rule_fix_mode f r s issues fixedfiles w0 Hfix Happ) as Hrun.
  destruct (r_fix r (fs w0) f s) as [xs|e] eqn:Ex; [|by rewrite Hrun in E].
  destruct (r_check r (fs w0) f xs.2) as [ys|e] eqn:Ey; [|by rewrite Hrun in E].
  rewrite Hrun in E.
  destruct (run_rules a f rpost _ _) as [[st2|e] w2] eqn:E2 in E; [|done].
  rewrite unless_emit in E. rename E into E3.
  exists st1, w1, (s, issues, fixedfiles), w0, xs, ys.
  split_and!; [done..| |].
  - destruct (run_rules_grows _ _ _ _ _ _ E2) as [_ P].
    destruct (check_files_grows _ _ _ _ _ _ _ _ E3) as [_ Q]. simpl in *. by etrans.
  - destruct (run_rules_grows _ _ _ _ _ _ E2) as [P _].
    destruct (check_files_grows _ _ _ _ _ _ _ _ E3) as [Q _]. simpl in *. by etrans.
Qed.

(** C4. In fix mode a rule that applies to a file has its fix operation
    called first, the identifiers it returns appended to [fixedfiles],
    then its check operation, on the stash the fix left, the findings
    appended to [issues]. Over the whole loop of a group a check call is
    never made without the fix call of the same rule on the same file
    directly before it; and a loop that comes to its end has made
    exactly these calls: for every file in turn and every rule that
    applies to it in turn the fix call and then the check call, on the
    state the loop had reached by then, and what the two returned is
    still in [fixedfiles] and [issues] at the end. *)
Theorem fix_runs_before_check :
  fix_mode a = true →
  (∀ f r s issues fixedfiles w, applicable f r = true →
     run_rule a f r (s, issues, fixedfiles) w =
       match r_fix r (fs w) f s with
       | Exc e => (Exc e, after w [CallFix (GetIDs r) f])
       | Val xs =>
           match r_check r (fs w) f xs.2 with
           | Exc e =>
               (Exc e, after w [CallFix (GetIDs r) f; CallCheck (GetIDs r) f])
           | Val ys =>
               (Val (ys.2, issues ++ ys.1, fixedfiles ++ xs.1),
                after w [CallFix (GetIDs r) f; CallCheck (GetIDs r) f])
           end
       end)
  ∧ (∀ rules index total _files st w,
       ∃ evs, (check_files a rules index total _files st w).2 = after w evs
              ∧ ∀ pre ids f post, evs = pre ++ CallCheck ids f :: post →
                  ∃ pre', pre = pre' ++ [CallFix ids f])
  ∧ (∀ rules index total _files st w st' w',
       check_files a rules index total _files st w = (Val st', w') →
       w' = after w (loop_calls a rules index total _files))
  ∧ (∀ rules index total fpre f fpost rpre r rpost st w st' w',
       rules = rpre ++ r :: rpost → applicable f r = true →
       check_files a rules index total (fpre ++ f :: fpost) st w = (Val st', w') →
       ∃ st1 w1 st0 w0 xs ys,
         check_files a rules index total fpre st w = (Val st1, w1)
         ∧ run_rules a f rpre st1 w1 = (Val st0, w0)
         ∧ r_fix r (fs w0) f st0.1.1 = Val xs
         ∧ r_check r (fs w0) f xs.2 = Val ys
         ∧ run_rule a f r st0 w0
           = (Val (ys.2, st0.1.2 ++ ys.1, st0.2 ++ xs.1),
              after w0 [CallFix (GetIDs r) f; CallCheck (GetIDs r) f])
         ∧ (st0.2 ++ xs.1) `prefix_of` st'.2
         ∧ (st0.1.2 ++ ys.1) `prefix_of` st'.1.2).
Proof.
  intros Hfix. split_and!.
  - intros. by apply run_rule_fix_mode.
  - intros rules index total _files st w.
    destruct (check_files_trace rules index total _files st w Hfix) as (evs & E & Hff).
    exists evs. split; [done|]. by apply fix_first_spec.
  - intros. by eapply check_files_calls.
  - intros. by eapply check_files_reaches.
Qed.

(** *** The fix transaction *)

Lemma os_rename_ok src dst c w :
  fs w !! src = Some c →
  os_rename src dst w
  = (Val tt, {| fs := <[dst := c]> (delete src (fs w)); log := log w ++ [Rename src dst] |}).
Proof. intros Hc. unfold os_rename, bind, get_fs. simpl. by rewrite Hc. Qed.

Lemma write_file_ok path content w :
  can_open_w (fs w) path = true →
  write_file path content w
  = (Val tt, {| fs := <[path := content]> (fs w); log := log w ++ [WriteFile path content] |}).
Proof. intros Hc. unfold write_file, bind, get_fs. simpl. by rewrite Hc. Qed.

Lemma rewrite_file_val s i w w' :
  rewrite_file a s i w = (Val tt, w') →
  log w' = log w ++ rewrite_events a s i
  ∧ (∀ p, is_Some (fs w !! p) → is_Some (fs w' !! p))
  ∧ is_Some (fs w' !! i)
  ∧ (nobackup a = false → is_Some (fs w' !! (i +:+ ".bak"))).
Proof.
  unfold rewrite_file, rewrite_events, os_rename, write_file, unless.
  unfold bind, get_fs, set_fs, emit, ret, raise. simpl.
  destruct (nobackup a) eqn:Hnb; simpl.
  - destruct (can_open_w (fs w) i); simpl; [|done].
    destruct (quiet a); intros [= <-]; simpl.
    all: split_and!; [by rewrite <- ?app_assoc| |rewrite lookup_insert_eq; eauto|done].
    all: intros p Hp; destruct (decide (p = i)) as [->|Hne];
      [rewrite lookup_insert_eq; eauto|by rewrite lookup_insert_ne].
  - destruct (fs w !! i) as [c|] eqn:Hc; simpl; [|done].
    destruct (can_open_w (<[i +:+ ".bak" := c]> (delete i (fs w))) i); simpl; [|done].
    destruct (quiet a); intros [= <-]; simpl.
    all: split_and!; [by rewrite <- ?app_assoc| |rewrite lookup_insert_eq; eauto|].
    all: try (intros p Hp; destruct (decide (p = i)) as [->|Hne];
      [rewrite lookup_insert_eq; eauto|];
      rewrite lookup_insert_ne by done;
      destruct (decide (p = i +:+ ".bak")) as [->|Hne'];
      [rewrite lookup_insert_eq; eauto|];
      rewrite lookup_insert_ne by done; by rewrite lookup_delete_ne).
    all: intros _; destruct (decide (i +:+ ".bak" = i)) as [E|Hne];
      [rewrite E, lookup_insert_eq; eauto|];
      rewrite lookup_insert_ne by done; rewrite lookup_insert_eq; eauto.
Qed.

Lemma rewrite_file_total s i w :
  (∀ m, can_open_w m i = true) →
  (nobackup a = false → is_Some (fs w !! i)) →
  ∃ w', rewrite_file a s i w = (Val tt, w').
Proof.
  intros Hopen Hex. unfold rewrite_file.
  destruct (nobackup a) eqn:Hnb; simpl.
  - unfold bind at 1. unfold ret at 1. unfold bind.
    rewrite write_file_ok by apply Hopen. rewrite unless_emit. eauto.
  - destruct (Hex eq_refl) as [c Hc].
    unfold bind at 1. rewrite (os_rename_ok _ _ c) by done. unfold bind.
    rewrite write_file_ok by apply Hopen. rewrite unless_emit. eauto.
Qed.

Lemma rewrite_files_val s items w w' :
  rewrite_files a s items w = (Val tt, w') →
  log w' = log w ++ flat_map (rewrite_events a s) items
  ∧ (∀ p, is_Some (fs w !! p) → is_Some (fs w' !! p))
  ∧ ∀ i, i ∈ items →
      is_Some (fs w' !! i)
      ∧ (nobackup a = false → is_Some (fs w' !! (i +:+ ".bak"))).
Proof.
  revert w. induction items as [|i items IH]; intros w; simpl.
  - intros [= <-]. split_and!; [by rewrite app_nil_r|done|].
    by intros i ?%elem_of_nil.
  - unfold bind. destruct (rewrite_file a s i w) as [[[]|e] w1] eqn:E1; [|done].
    intros E2.
    destruct (rewrite_file_val s i w w1 E1) as (Hlog1 & Hmono1 & Hi1 & Hbak1).
    destruct (IH w1 E2) as (Hlog2 & Hmono2 & Hall2).
    split_and!.
    + by rewrite Hlog2, Hlog1, <- app_assoc.
    + intros p Hp. by apply Hmono2, Hmono1.
    + intros j [->|Hj]%elem_of_cons; [|by apply Hall2].
      split; [by apply Hmono2|]. intros Hnb. by apply Hmono2, Hbak1.
Qed.

Lemma rewrite_files_total s items w :
  (∀ i, i ∈ items →
        (∀ m, can_open_w m i = true) ∧ (nobackup a = false → is_Some (fs w !! i))) →
  ∃ w', rewrite_files a s items w = (Val tt, w').
Proof.
  revert w. induction items as [|i items IH]; intros w Hok; simpl; [by exists w|].
  destruct (Hok i ltac:(left)) as [Hopen Hex].
  destruct (rewrite_file_total s i w Hopen Hex) as [w1 E1].
  destruct (rewrite_file_val s i w w1 E1) as (_ & Hmono1 & _).
  destruct (IH w1) as [w2 E2].
  { intros j Hj. destruct (Hok j ltac:(by right)) as [Hopenj Hexj].
    split; [done|]. intros Hnb. apply Hmono1. by apply Hexj. }
  exists w2. unfold bind. by rewrite E1.
Qed.

Lemma rewrite_files_app s l1 l2 w :
  rewrite_files a s (l1 ++ l2) w
  = bind (rewrite_files a s l1) (λ _, rewrite_files a s l2) w.
Proof.
  revert w. induction l1 as [|i l1 IH]; intros w; simpl; [done|].
  unfold bind in *. destruct (rewrite_file a s i w) as [[[]|e] w1]; [|done].
  apply IH.
Qed.

Lemma fix_transaction_items s fixedfiles w :
  fix_transaction a s fixedfiles w = rewrite_files a s (linked_items s fixedfiles) w.
Proof.
  revert w. induction fixedfiles as [|f rest IH]; intros w; [done|].
  unfold linked_items. simpl flat_map.
  change (f :: GetLinksForFile s f ++ flat_map (λ f0, f0 :: GetLinksForFile s f0) rest)
    with ((f :: GetLinksForFile s f) ++ linked_items s rest).
  rewrite rewrite_files_app.
  change (fix_transaction a s (f :: rest) w)
    with (bind (rewrite_files a s (f :: GetLinksForFile s f))
               (λ _, fix_transaction a s rest) w).
  unfold bind.
  destruct (rewrite_files a s (f :: GetLinksForFile s f) w) as [[[]|e] w1]; [|done].
  apply IH.
Qed.

Lemma linked_items_elem s fixedfiles i :
  i ∈ linked_items s fixedfiles ↔ ∃ x, x ∈ fixedfiles ∧ i ∈ x :: GetLinksForFile s x.
Proof.
  unfold linked_items. rewrite list_elem_of_In, in_flat_map. split.
  - intros (x & Hx & Hi). exists x. by rewrite !list_elem_of_In.
  - intros (x & Hx & Hi). exists x. by rewrite <- !list_elem_of_In.
Qed.

Lemma list_set_elem {A} `{Countable A} (l : list A) x : x ∈ list_set l ↔ x ∈ l.
Proof. unfold list_set. by rewrite elem_of_elements, elem_of_list_to_set. Qed.

(** C5. A fix transaction that runs to its end has gone through every
    identifier of the deduplicated [fixedfiles] and, for each, through the
    identifier itself and every file the stash links to it: each of these
    files was renamed to its backup (unless backups are disabled) and then
    written anew from the stash, whatever file the rule was invoked with.
    It runs to its end when these files can be opened for writing and,
    unless backups are disabled, exist. *)
Theorem fixed_files_and_links_are_rewritten s fixedfiles w :
  (∀ w', fix_transaction a s (list_set fixedfiles) w = (Val tt, w') →
     log w' = log w
              ++ flat_map (rewrite_events a s) (linked_items s (list_set fixedfiles))
     ∧ ∀ x i, x ∈ fixedfiles → i ∈ x :: GetLinksForFile s x →
         (∃ pre post, log w' = pre ++ rewrite_events a s i ++ post)
         ∧ is_Some (fs w' !! i)
         ∧ (nobackup a = false → is_Some (fs w' !! (i +:+ ".bak"))))
  ∧ ((∀ x i, x ∈ fixedfiles → i ∈ x :: GetLinksForFile s x →
        (∀ m, can_open_w m i = true)
        ∧ (nobackup a = false → is_Some (fs w !! i))) →
     ∃ w', fix_transaction a s (list_set fixedfiles) w = (Val tt, w')).
Proof.
  split.
  - intros w' E. rewrite fix_transaction_items in E.
    destruct (rewrite_files_val _ _ _ _ E) as (Hlog & _ & Hall).
    split; [done|]. intros x i Hx Hi.
    assert (i ∈ linked_items s (list_set fixedfiles)) as Hin.
    { apply linked_items_elem. exists x. by rewrite list_set_elem. }
    split; [|by apply Hall].
    apply list_elem_of_split in Hin as (l1 & l2 & E').
    exists (log w ++ flat_map (rewrite_events a s) l1),
           (flat_map (rewrite_events a s) l2).
    rewrite Hlog, E', flat_map_app. simpl. by rewrite <- !app_assoc.
  - intros Hok. rewrite fix_transaction_items. apply rewrite_files_total.
    intros i (x & Hx & Hi)%linked_items_elem.
    apply (proj1 (list_set_elem _ _)) in Hx. by apply (Hok x).
Qed.

(** *** Ingestion *)

Lemma ingest_app l1 l2 s w :
  ingest a (l1 ++ l2) s w = bind (ingest a l1 s) (ingest a l2) w.
Proof.
  revert s w. induction l1 as [|f l1 IH]; intros s w; simpl; [done|].
  unfold bind in *. unfold emit, get_fs. simpl.
  destruct (AddFile (fs w) s f) as [s'|[msg| |msg]]; [apply IH| |done..].
  unfold unless. destruct (quiet a); apply IH.
Qed.

(** C8, amended. When [AddFile] raises [FileNotFoundError] for a file of
    the group, ingestion goes on with the remaining files from the stash
    as it was before the call, after printing a diagnostic unless quiet
    mode is set; any other exception of [AddFile] is not caught here and
    ends the ingestion. *)
Theorem unreadable_file_is_skipped pre f post s w s1 w1 e :
  ingest a pre s w = (Val s1, w1) →
  AddFile (fs w1) s1 f = Exc e →
  ingest a (pre ++ f :: post) s w =
    match e with
    | FileNotFoundError msg =>
        ingest a post s1
          (after w1 (CallAddFile f
                     :: if quiet a then [] else [Print ("Can't open/read: " +:+ msg)]))
    | _ => (Exc e, after w1 [CallAddFile f])
    end.
Proof.
  intros Hpre Hadd. rewrite ingest_app. rewrite (bind_val _ _ _ _ _ Hpre).
  simpl. unfold bind, emit, get_fs. simpl.
  rewrite Hadd. destruct e as [msg| |msg]; [|done..].
  unfold unless, after. destruct (quiet a); simpl; [done|].
  unfold emit. simpl. by rewrite <- app_assoc.
Qed.

(** *** The report and the exit status *)

Global Instance finding_le_total : Total finding_le.
Proof. intros x y. unfold finding_le. apply (total key_le). Qed.

Global Instance finding_le_trans : Transitive finding_le.
Proof. intros x y z. unfold finding_le. apply (transitivity (R := key_le)). Qed.

Lemma list_set_NoDup {A} `{Countable A} (l : list A) : NoDup (list_set l).
Proof. apply NoDup_elements. Qed.

Lemma list_set_remove_dups {A} `{Countable A} (l : list A) :
  list_set l ≡ₚ remove_dups l.
Proof.
  apply NoDup_Permutation; [apply list_set_NoDup|apply NoDup_remove_dups|].
  intros x. by rewrite list_set_elem, elem_of_remove_dups.
Qed.

Lemma sorted_issues_perm issues : sorted_issues issues ≡ₚ remove_dups issues.
Proof.
  unfold sorted_issues. rewrite merge_sort_Permutation. apply list_set_remove_dups.
Qed.

Lemma report_ok issues w :
  (∀ p, output a = Some p → can_open_w (fs w) p = true) →
  ∃ w', report a issues w = (Val tt, w').
Proof.
  intros Hopen. unfold report. destruct (output a) as [p|].
  - rewrite write_file_ok by (by apply Hopen). eauto.
  - rewrite emit_after. eauto.
Qed.

(** C7, amended. The Reporter writes every distinct finding, that is
    every distinct pair of a sort key and a display line, exactly once,
    however often and by whichever rule or group it was produced, and the
    lines are written in ascending order of their sort keys. (A display
    line carried by findings with different sort keys is written once for
    each of them.) *)
Theorem report_writes_each_finding_once issues w :
  let out := sorted_issues issues in
  let text := String.concat nl (map snd out) +:+ nl in
  NoDup out
  ∧ (∀ x, x ∈ out ↔ x ∈ issues)
  ∧ StronglySorted finding_le out
  ∧ (output a = None → report a out w = (Val tt, after w [WriteStderr text]))
  ∧ (∀ p, output a = Some p → can_open_w (fs w) p = true →
          report a out w
          = (Val tt, {| fs := <[p := text]> (fs w);
                        log := log w ++ [WriteFile p text] |})).
Proof.
  intros out text. split_and!.
  - unfold out. rewrite sorted_issues_perm. apply NoDup_remove_dups.
  - intros x. unfold out. rewrite sorted_issues_perm. apply elem_of_remove_dups.
  - apply StronglySorted_merge_sort; apply _.
  - intros Ho. unfold report. by rewrite Ho.
  - intros p Ho Hopen. unfold report. rewrite Ho. by apply write_file_ok.
Qed.

Lemma unique_count issues :
  length (sorted_issues issues) = length (remove_dups issues)
  ∧ length (remove_dups issues) = size (list_to_set issues : gset finding).
Proof.
  split; [by rewrite sorted_issues_perm|].
  rewrite <- (size_list_to_set (C := gset finding) (remove_dups issues))
    by apply NoDup_remove_dups.
  f_equal. apply set_eq. intros x.
  by rewrite !elem_of_list_to_set, elem_of_remove_dups.
Qed.

(** The body of the [try] gets to [sys.exit] when the findings are
    collected and the report can be written. *)
Lemma try_body_reaches_exit issues w w1 :
  collect a w = (Val issues, w1) →
  (∀ p, output a = Some p → can_open_w (fs w1) p = true) →
  ∃ w', try_body a w = (Val (length (remove_dups issues)), w').
Proof.
  intros Hc Hopen. unfold try_body. rewrite (bind_val _ _ _ _ _ Hc).
  destruct (report_ok (sorted_issues issues) w1 Hopen) as [w2 Hr].
  rewrite (bind_val _ _ _ _ _ Hr). exists w2. unfold ret.
  by rewrite (proj1 (unique_count issues)).
Qed.

Lemma exit_status_exited n :
  exit_status (Exited n) = n mod 256
  ∧ (exit_status (Exited n) = n ↔ n < 256).
Proof.
  unfold exit_status. split; [done|]. split.
  - intros E. rewrite <- E. by apply Nat.mod_upper_bound.
  - apply Nat.mod_small.
Qed.

(** C6, amended. A run that gets through the body of the [try] ends in
    [sys.exit] with the number [n] of distinct findings collected over
    all groups, two findings being the same when both their sort keys
    and their display lines are equal. The exit status of the process is
    [n] modulo 256: it is [n] itself exactly when there are fewer than
    256 distinct findings, 0 for none. *)
Theorem exit_status_is_number_of_unique_findings_modulo_256 n w w' :
  try_body a w = (Val n, w') →
  ∃ issues w1,
    collect a w = (Val issues, w1)
    ∧ n = length (remove_dups issues)
    ∧ n = size (list_to_set issues : gset finding)
    ∧ main a w = (Exited n, w')
    ∧ exit_status (main a w).1 = n mod 256
    ∧ (exit_status (main a w).1 = n ↔ n < 256).
Proof.
  intros Ht.
  assert (main a w = (Exited n, w')) as Hmain by (unfold main; by rewrite Ht).
  rewrite Hmain. unfold try_body, bind in Ht.
  destruct (collect a w) as [[issues|e] w1]; [|done].
  destruct (report a (sorted_issues issues) w1) as [[[]|e] w2]; [|done].
  unfold ret in Ht. inversion Ht; subst. clear Ht.
  exists issues, w1. destruct (unique_count issues) as [E1 E2].
  split_and!; [done|done|by rewrite E1|done|..]; apply exit_status_exited.
Qed.

(** C9. When an exception leaves the body of the [try], the handler
    prints the diagnostic with the list of input files and the trace,
    [main] returns, and the process ends with status 0, the status of a
    run that found nothing. *)
Theorem escaped_exception_exits_with_zero e w w1 :
  try_body a w = (Exc e, w1) →
  main a w
  = (Returned,
     after w1 [Print ("OOPS - That shouldn't happen - " +:+ repr_list (files a));
               PrintExc e])
  ∧ exit_status (main a w).1 = 0
  ∧ exit_status (main a w).1 = exit_status (Exited 0).
Proof.
  intros Ht. unfold main. rewrite Ht. split_and!; [|done..].
  f_equal. unfold handler, bind. rewrite !emit_after. simpl.
  by rewrite after_after.
Qed.

End loop.

(** *** The theorems at the small instance *)

Lemma fix_runs_before_check_witness :
  ∃ st',
    check_files (H := demo) (demo_args true true []) [demo_rule] 0 2
      ["d/a_1.0.bb"; "d/a_1.0.bbappend"] ([], [], []) demo_world
    = (Val st',
       after demo_world
         [CallFix ["demo.rule"] "d/a_1.0.bb"; CallCheck ["demo.rule"] "d/a_1.0.bb";
          CallFix ["demo.rule"] "d/a_1.0.bbappend";
          CallCheck ["demo.rule"] "d/a_1.0.bbappend"])
    ∧ ["d/a_1.0.bb"; "d/a_1.0.bbappend"] `prefix_of` st'.2.
Proof.
  destruct (fix_runs_before_check (H := demo) (demo_args true true []))
    as (_ & _ & Hcalls & Hreach); [reflexivity|].
  let r := eval vm_compute in
    (check_files (H := demo) (demo_args true true []) [demo_rule] 0 2
       ["d/a_1.0.bb"; "d/a_1.0.bbappend"] ([], [], []) demo_world) in
  lazymatch r with
  | (Val ?st', ?w') =>
      assert (check_files (H := demo) (demo_args true true []) [demo_rule] 0 2
                ["d/a_1.0.bb"; "d/a_1.0.bbappend"] ([], [], []) demo_world
              = (Val st', w')) as E by (vm_compute; reflexivity);
      exists st'
  end.
  split.
  - rewrite E. rewrite (Hcalls _ _ _ _ _ _ _ _ E) at 1. reflexivity.
  - destruct (Hreach [demo_rule] 0 2 ["d/a_1.0.bb"] "d/a_1.0.bbappend" []
                [] demo_rule [] _ _ _ _ eq_refl eq_refl E)
      as (st1 & w1 & st0 & w0 & xs & ys & E1 & E0 & Ex & _ & _ & Hpre & _).
    vm_compute in E1. injection E1 as <- <-.
    vm_compute in E0. injection E0 as <- <-.
    vm_compute in Ex. injection Ex as <-.
    exact Hpre.
Defined.

Lemma fixed_files_and_links_are_rewritten_witness :
  ∃ w', fix_transaction (H := demo) (demo_args true true [])
          ["d/a_1.0.bb"; "d/a_1.0.bbappend"] (list_set ["d/a_1.0.bb"]) demo_world
        = (Val tt, w')
        ∧ is_Some (fs w' !! "d/a_1.0.bbappend")
        ∧ is_Some (fs w' !! "d/a_1.0.bbappend.bak").
Proof.
  destruct (fixed_files_and_links_are_rewritten (H := demo) (demo_args true true [])
              ["d/a_1.0.bb"; "d/a_1.0.bbappend"] ["d/a_1.0.bb"] demo_world)
    as [Hval Htotal].
  destruct Htotal as [w' E].
  - intros x i Hx Hi. split; [reflexivity|]. intros _.
    apply list_elem_of_singleton in Hx as ->.
    vm_compute in Hi.
    apply elem_of_cons in Hi as [->|Hi]; [by_evaluation|].
    apply list_elem_of_singleton in Hi as ->. by_evaluation.
  - exists w'. split; [exact E|].
    destruct (Hval w' E) as [_ Hall].
    destruct (Hall "d/a_1.0.bb" "d/a_1.0.bbappend") as (_ & Hi & Hbak).
    + by_evaluation.
    + by_evaluation.
    + split; [exact Hi|]. apply Hbak. reflexivity.
Defined.

Lemma exit_status_is_number_of_unique_findings_modulo_256_witness :
  (main (H := demo) (demo_args true false Grouping.recipe_and_append) demo_world).1
  = Exited 1
  ∧ exit_status
      (main (H := demo) (demo_args true false Grouping.recipe_and_append) demo_world).1
    = 1.
Proof.
  let r := eval vm_compute in
    (try_body (H := demo) (demo_args true false Grouping.recipe_and_append) demo_world) in
  lazymatch r with
  | (Val ?n, ?w') =>
      destruct (exit_status_is_number_of_unique_findings_modulo_256 (H := demo)
                  (demo_args true false Grouping.recipe_and_append)
                  n demo_world w') as (issues & w1 & _ & _ & _ & Hmain & _ & Hsmall)
  end.
  - vm_compute. reflexivity.
  - split; [by rewrite Hmain|]. apply Hsmall. lia.
Defined.

Lemma full_byte_of_findings_exits_with_zero :
  ∃ issues w1,
    collect (H := noisy) (demo_args false true ["d/a_1.0.bb"]) demo_world
    = (Val issues, w1)
    ∧ NoDup issues
    ∧ length issues = 256
    ∧ (main (H := noisy) (demo_args false true ["d/a_1.0.bb"]) demo_world).1
      = Exited 256
    ∧ exit_status
        (main (H := noisy) (demo_args false true ["d/a_1.0.bb"]) demo_world).1
      = 0.
Proof.
  let r := eval vm_compute in
    (collect (H := noisy) (demo_args false true ["d/a_1.0.bb"]) demo_world) in
  lazymatch r with
  | (Val ?issues, ?w1) =>
      assert (collect (H := noisy) (demo_args false true ["d/a_1.0.bb"]) demo_world
              = (Val issues, w1)) as Hc by (vm_compute; reflexivity);
      assert (length (remove_dups issues) = 256) as Hn by (vm_compute; reflexivity);
      exists issues, w1
  end.
  destruct (try_body_reaches_exit (H := noisy) _ _ _ _ Hc) as [w' Ht]; [done|].
  rewrite Hn in Ht.
  assert (main (H := noisy) (demo_args false true ["d/a_1.0.bb"]) demo_world
          = (Exited 256, w')) as Hmain by (unfold main; by rewrite Ht).
  rewrite Hmain. split_and!; [done|by_evaluation|by vm_compute|done|done].
Qed.

Lemma same_line_written_twice :
  map snd (sorted_issues (H := demo) [(1, "recipe.bb:error:x"); (2, "recipe.bb:error:x")])
  = ["recipe.bb:error:x"; "recipe.bb:error:x"]
  ∧ report (H := demo) (demo_args false true [])
      (sorted_issues (H := demo) [(1, "recipe.bb:error:x"); (2, "recipe.bb:error:x")])
      demo_world
    = (Val tt, after demo_world
                 [WriteStderr ("recipe.bb:error:x" +:+ nl +:+ "recipe.bb:error:x" +:+ nl)])
  ∧ ¬ NoDup (map snd (sorted_issues (H := demo)
                        [(1, "recipe.bb:error:x"); (2, "recipe.bb:error:x")])).
Proof.
  split_and!; [by vm_compute|by vm_compute|].
  replace (map snd (sorted_issues (H := demo)
                      [(1, "recipe.bb:error:x"); (2, "recipe.bb:error:x")]))
    with ["recipe.bb:error:x"; "recipe.bb:error:x"] by (by vm_compute).
  intros Hnd. apply NoDup_cons in Hnd as [Hnin _]. apply Hnin. left.
Qed.

Lemma unreadable_file_is_skipped_witness :
  ingest (H := demo) (demo_args false false [])
    (["d/a_1.0.bb"] ++ "d/b_2.0.bb" :: ["d/a_1.0.bbappend"]) [] demo_world
  = (Val ["d/a_1.0.bb"; "d/a_1.0.bbappend"],
     after demo_world [CallAddFile "d/a_1.0.bb"; CallAddFile "d/b_2.0.bb";
                       Print "Can't open/read: d/b_2.0.bb";
                       CallAddFile "d/a_1.0.bbappend"]).
Proof.
  rewrite (unreadable_file_is_skipped (H := demo) (demo_args false false [])
             ["d/a_1.0.bb"] "d/b_2.0.bb" ["d/a_1.0.bbappend"] [] demo_world
             ["d/a_1.0.bb"] (after demo_world [CallAddFile "d/a_1.0.bb"])
             (FileNotFoundError "d/b_2.0.bb")).
  - vm_compute. reflexivity.
  - vm_compute. reflexivity.
  - vm_compute. reflexivity.
Defined.

Lemma quiet_run_prints_no_diagnostic :
  AddFile (Collaborators := demo) (fs demo_world) [] "d/b_2.0.bb"
  = Exc (FileNotFoundError "d/b_2.0.bb")
  ∧ ingest (H := demo) (demo_args false true []) ["d/b_2.0.bb"; "d/a_1.0.bb"] [] demo_world
    = (Val ["d/a_1.0.bb"],
       after demo_world [CallAddFile "d/b_2.0.bb"; CallAddFile "d/a_1.0.bb"])
  ∧ ∀ line, Print line ∉ [CallAddFile "d/b_2.0.bb"; CallAddFile "d/a_1.0.bb"].
Proof.
  split_and!; [by vm_compute|by vm_compute|].
  intros line Hin. apply elem_of_cons in Hin as [?|Hin]; [done|].
  apply list_elem_of_singleton in Hin. done.
Qed.

Lemma escaped_exception_exits_with_zero_witness :
  exit_status
    (main (H := demo) (demo_args false true ["d/a_1.0.bb"; "d/a(.bbappend"]) demo_world).1
  = 0.
Proof.
  destruct (escaped_exception_exits_with_zero (H := demo)
              (demo_args false true ["d/a_1.0.bb"; "d/a(.bbappend"])
              PatternError demo_world demo_world) as (_ & Hz & _).
  - vm_compute. reflexivity.
  - exact Hz.
Defined.

End PipelineFacts.

(** ** More about the Group Builder *)

Module GroupingMore.
Import PyStr OsPath Re Grouping GroupingFacts.

(** *** No group is empty *)

Lemma nonempty_end files res :
  pass2 files (pass1 files) = Some res → nonempty res.
Proof.
  intros Hp.
  enough (∀ rest r r', nonempty r → pass2 rest r = Some r' → nonempty r') as Hgen.
  { apply (Hgen files (pass1 files) res); [|done].
    intros i Hi. by apply (r1_first _ _ (round1_pass1 files)). }
  clear. induction rest as [|f rest IH]; intros r r' Hne Hp; simpl in Hp.
  - by inv Hp.
  - destruct (pass2_step r f) as [r1|] eqn:E; [|done].
    apply (IH r1 r'); [|done]. by eapply nonempty_step.
Qed.

(** X1. Every group the Group Builder returns holds at least one file,
    and a file of the input list. *)
Theorem groups_are_not_empty files gs g :
  group_files files = Some gs → g ∈ gs → ∃ x, x ∈ g ∧ x ∈ files.
Proof.
  intros (res & Hp & ->)%group_files_Some Hg.
  change (map ?f ?l) with (f <$> l) in Hg.
  apply list_elem_of_fmap in Hg as ([k v] & -> & [i Hi]%list_elem_of_lookup_1).
  destruct (nonempty_end files res Hp i) as (x & kv & Hkv & Hx).
  { by eapply lookup_lt_Some. }
  rewrite Hi in Hkv. inv Hkv. exists x. split.
  - by apply sorted_by_index_elem.
  - destruct (round2_end files res Hp) as [HQ _].
    eapply member_in_files; [done|done|]. by exists (k, v).
Qed.

(** X2. Two base files of the list are in the same group exactly when
    their keys are equal. *)
Theorem base_files_are_grouped_by_key files gs x y :
  group_files files = Some gs →
  x ∈ files → y ∈ files → is_base x = true → is_base y = true →
  (∃ i, in_group gs i x ∧ in_group gs i y) ↔ key_of x = key_of y.
Proof.
  intros (res & Hp & ->)%group_files_Some Hx Hy Hbx Hby.
  destruct (round2_end files res Hp) as [HQ _].
  assert (∀ z i, is_base z = true → member res i z →
                 res.*1 !! i = Some (key_of z)) as Hkey.
  { intros z i Hbz Hz.
    destruct (r2_mem _ _ _ _ HQ i z Hz) as [(_ & _ & ? & _)|[Ha _]]; [done|].
    apply base_not_append in Hbz. congruence. }
  split.
  - intros (i & Hix%in_group_member & Hiy%in_group_member).
    pose proof (Hkey x i Hbx Hix) as Kx. pose proof (Hkey y i Hby Hiy) as Ky.
    congruence.
  - intros E.
    destruct (r2_base _ _ _ _ HQ x Hx Hbx) as [i Hi].
    destruct (r2_base _ _ _ _ HQ y Hy Hby) as [j Hj].
    pose proof (Hkey x i Hbx Hi) as Kx. pose proof (Hkey y j Hby Hj) as Ky.
    rewrite E in Kx.
    assert (i = j) as <-.
    { eapply NoDup_lookup; [apply (r2_nodup _ _ _ _ HQ)|done..]. }
    exists i. split; by apply in_group_member.
Qed.

(** *** The key of a name *)

Lemma concat_cons_head sep a h t :
  String.concat sep (String a h :: t) = String a (String.concat sep (h :: t)).
Proof. by destruct t. Qed.

Lemma split_not_nil c s : split c s ≠ [].
Proof.
  destruct s as [|a s]; simpl; [done|].
  destruct (Ascii.eqb a c); [done|]. by destruct (split c s).
Qed.

Lemma split_snoc c pre ver :
  contains c ver = false →
  split c (pre +:+ String c ver) = split c pre ++ [ver].
Proof.
  intros Hv. induction pre as [|a pre IH]; simpl.
  - rewrite Ascii.eqb_refl. by rewrite (GroupingFacts.split_no_sep _ _ Hv).
  - destruct (Ascii.eqb a c); rewrite IH; [done|].
    pose proof (split_not_nil c pre). by destruct (split c pre).
Qed.

Lemma join_split c s : join (String c "") (split c s) = s.
Proof.
  unfold join. induction s as [|a s IH]; simpl; [done|].
  destruct (Ascii.eqb a c) eqn:E.
  - apply Ascii.eqb_eq in E as ->.
    pose proof (split_not_nil c s). destruct (split c s) as [|h t]; [done|].
    simpl in *. by rewrite IH.
  - pose proof (split_not_nil c s). destruct (split c s) as [|h t]; [done|].
    rewrite concat_cons_head. by rewrite IH.
Qed.

Lemma replace_removes c s : contains c (replace c "" s) = false.
Proof.
  induction s as [|a s IH]; simpl; [done|].
  destruct (Ascii.eqb a c) eqn:E; simpl; [done|]. by rewrite E.
Qed.

(** X3. The key of a name is what stands before its last underscore,
    without the wildcard markers: for a base name [pre_ver] whose part
    [ver] has no underscore the key is [pre] with every [%] removed. No
    key holds a [%]. *)
Theorem key_strips_last_segment _filename :
  contains "%" (filename_key _filename) = false
  ∧ ∀ pre ver,
      basename _filename = pre +:+ String "_" ver →
      contains "_" ver = false →
      filename_key _filename = replace "%" "" pre.
Proof.
  split; [apply replace_removes|].
  intros pre ver E Hv. unfold filename_key. rewrite E.
  rewrite (split_snoc "_" pre ver Hv). unfold drop_last.
  rewrite removelast_last. by rewrite (join_split "_" pre).
Qed.

(** *** The theorems at concrete lists *)

Lemma groups_are_not_empty_witness :
  ∃ x, x ∈ ["d/b_2.0.bb"] ∧ x ∈ recipe_and_append.
Proof.
  apply (groups_are_not_empty recipe_and_append
           [["d/a_1.0.bb"; "d/a_1.0.bbappend"]; ["d/b_2.0.bb"]]).
  - vm_compute. reflexivity.
  - by_evaluation.
Defined.

Lemma base_files_are_grouped_by_key_witness :
  (∃ i, in_group [["d/a_1.0.bb"; "e/a_2.0.bb"]; ["d/b_2.0.bb"]] i "d/a_1.0.bb"
        ∧ in_group [["d/a_1.0.bb"; "e/a_2.0.bb"]; ["d/b_2.0.bb"]] i "e/a_2.0.bb")
  ↔ key_of "d/a_1.0.bb" = key_of "e/a_2.0.bb".
Proof.
  apply (base_files_are_grouped_by_key ["d/a_1.0.bb"; "d/b_2.0.bb"; "e/a_2.0.bb"]).
  - vm_compute. reflexivity.
  - by_evaluation.
  - by_evaluation.
  - vm_compute. reflexivity.
  - vm_compute. reflexivity.
Defined.

Lemma key_strips_last_segment_witness :
  filename_key "d/a%b_c_1.0" = "ab_c".
Proof.
  destruct (key_strips_last_segment "d/a%b_c_1.0") as [_ Hkey].
  rewrite (Hkey "a%b_c" "1.0").
  - vm_compute. reflexivity.
  - vm_compute. reflexivity.
  - vm_compute. reflexivity.
Defined.

End GroupingMore.

(** ** Names, patterns and the files that take part *)

Module NamesFacts.
Import PyStr OsPath Re Grouping GroupingFacts Names.

(** *** Patterns and paths *)

Lemma parse_quant_special q k : parse_quant q = Some k → is_special q = true.
Proof.
  unfold parse_quant.
  destruct (Ascii.eqb q "*") eqn:E1; [apply Ascii.eqb_eq in E1 as ->; done|].
  destruct (Ascii.eqb q "+") eqn:E2; [apply Ascii.eqb_eq in E2 as ->; done|].
  destruct (Ascii.eqb q "?") eqn:E3; [apply Ascii.eqb_eq in E3 as ->; done|].
  done.
Qed.

Lemma compile_cons_plain a p :
  parse_atom a = Some (atom_of a) → starts_with_quant p = false →
  compile (String a p) = option_map (cons (atom_of a, One)) (compile p).
Proof.
  intros Ha Hq. simpl. rewrite Ha. destruct p as [|q r]; [done|].
  simpl in Hq. by destruct (parse_quant q).
Qed.

Lemma compile_needle p :
  starts_with_quant p = false →
  compile (".*/" +:+ p)
  = option_map (λ r, (Dot, Star) :: (Lit "/", One) :: r) (compile p).
Proof.
  intros Hq.
  change (".*/" +:+ p) with (String "." (String "*" (String "/" p))).
  change (compile (String "." (String "*" (String "/" p))))
    with (option_map (cons (Dot, Star)) (compile (String "/" p))).
  rewrite (compile_cons_plain "/" p eq_refl Hq).
  by destruct (compile p).
Qed.

Lemma replace_starts_with_quant name :
  starts_with_quant name = false →
  starts_with_quant (replace "%" ".*" name) = false.
Proof.
  destruct name as [|a r]; simpl; [done|].
  destruct (Ascii.eqb a "%") eqn:E; [done|]. done.
Qed.

Lemma matches_star_unfold a p s :
  matches ((a, Star) :: p) s
  = matches p s
    || match s with
       | String c s' => atom_matches a c && matches ((a, Star) :: p) s'
       | EmptyString => false
       end.
Proof. by destruct s. Qed.

Lemma slash_free_no_match r x :
  contains "/" x = false →
  matches ((Dot, Star) :: (Lit "/", One) :: r) x = false.
Proof.
  induction x as [|c x IH]; intros Hx; rewrite matches_star_unfold.
  - done.
  - simpl in Hx. apply orb_false_iff in Hx as [Hc Hx].
    rewrite (IH Hx), andb_false_r, orb_false_r.
    simpl. by rewrite Hc.
Qed.

Lemma re_match_needle p x :
  starts_with_quant p = false →
  re_match (".*/" +:+ p) x
  = option_map (λ r, matches ((Dot, Star) :: (Lit "/", One) :: r) x) (compile p).
Proof.
  intros Hq. unfold re_match. rewrite compile_needle by done.
  by destruct (compile p).
Qed.

Lemma re_match_needle_Some p r x :
  starts_with_quant p = false → compile p = Some r →
  re_match (".*/" +:+ p) x = Some (matches ((Dot, Star) :: (Lit "/", One) :: r) x).
Proof. intros Hq Hc. rewrite re_match_needle by done. by rewrite Hc. Qed.

Lemma needle_slash_free f x :
  starts_with_quant (basename (root f)) = false →
  contains "/" x = false →
  re_match (needle f) x ≠ Some true.
Proof.
  intros Hq Hx. unfold needle, needle_of.
  rewrite re_match_needle by (by apply replace_starts_with_quant).
  destruct (compile _) as [r|]; [|done].
  unfold option_map. by rewrite slash_free_no_match.
Qed.


Lemma tame_appends_spec files f :
  tame_appends files = true → f ∈ files → is_append f = true →
  is_Some (compile (needle f)) ∧ starts_with_quant (basename (root f)) = false.
Proof.
  unfold tame_appends. rewrite forallb_forall. intros Hall Hf%list_elem_of_In Ha.
  specialize (Hall f Hf). rewrite Ha in Hall. simpl in Hall.
  apply andb_true_iff in Hall as [Hc Hq%negb_true_iff]. split; [|done].
  unfold compiles in Hc. destruct (compile (needle f)); [eauto|done].
Qed.

Lemma bare_spec files x : bare files = true → x ∈ files → contains "/" x = false.
Proof.
  unfold bare. rewrite forallb_forall. intros Hall Hx%list_elem_of_In.
  by apply negb_true_iff, Hall.
Qed.

Lemma bare_unambiguous files :
  bare files = true → tame_appends files = true → unambiguous files = true.
Proof.
  intros Hb Ht. apply unambiguous_intro. intros f Hf Ha.
  destruct (tame_appends_spec _ _ Ht Hf Ha) as [Hc Hq]. split; [done|].
  intros x Hx _ Hm. by destruct (needle_slash_free f x Hq (bare_spec _ _ Hb Hx)).
Qed.

Lemma bare_target files x :
  bare files = true → tame_appends files = true →
  x ∈ files → recognised x = true → target files x = key_of x.
Proof.
  intros Hb Ht Hx Hr. unfold target. destruct (is_base x) eqn:Hbx; [done|].
  unfold recognised in Hr. rewrite Hbx in Hr. simpl in Hr.
  destruct (find _ files) as [b|] eqn:E; [|done].
  apply find_some in E as [Hbf%list_elem_of_In [_ Hm]%andb_true_iff].
  apply bool_decide_eq_true in Hm.
  destruct (tame_appends_spec _ _ Ht Hx Hr) as [_ Hq].
  by destruct (needle_slash_free x b Hq (bare_spec _ _ Hb Hbf)).
Qed.

(** X4. When no path of the list holds a slash and the pattern of every
    append file is in the modelled fragment of [re] (literal characters,
    the dot and the quantifiers [*], [+] and [?] after one of them, so
    no alternation, group, class, anchor or escape), with a base name
    that does not start with a quantifier, no pattern matches (every
    such pattern asks for a slash) and the second round always takes its
    fallback: the builder answers and two recognised files share a group
    exactly when their keys are equal. *)
Theorem bare_names_are_grouped_by_key files :
  bare files = true → tame_appends files = true →
  ∃ gs, group_files files = Some gs
        ∧ ∀ x y, x ∈ files → y ∈ files →
            recognised x = true → recognised y = true →
            (∃ i, in_group gs i x ∧ in_group gs i y) ↔ key_of x = key_of y.
Proof.
  intros Hb Ht. pose proof (bare_unambiguous files Hb Ht) as HU.
  destruct (unambiguous_total _ HU) as [gs Hgs]. exists gs. split; [done|].
  apply group_files_Some in Hgs as (res & Hp & ->).
  destruct (round2_end files res Hp) as [HQ _].
  destruct (on_target_end files res HU Hp) as [HT _].
  assert (∀ z, z ∈ files → recognised z = true → ∃ i, member res i z) as Hplace.
  { intros z Hz [Hbz|Haz]%orb_true_iff.
    - by apply (r2_base _ _ _ _ HQ).
    - by apply (r2_app _ _ _ _ HQ). }
  intros x y Hx Hy Hrx Hry. split.
  - intros (i & Hix%in_group_member & Hiy%in_group_member).
    pose proof (HT i x Hix) as Kx. pose proof (HT i y Hiy) as Ky.
    rewrite (bare_target files x Hb Ht Hx Hrx) in Kx.
    rewrite (bare_target files y Hb Ht Hy Hry) in Ky. congruence.
  - intros E. destruct (Hplace x Hx Hrx) as [i Hi]. destruct (Hplace y Hy Hry) as [j Hj].
    pose proof (HT i x Hi) as Kx. pose proof (HT j y Hj) as Ky.
    rewrite (bare_target files x Hb Ht Hx Hrx) in Kx.
    rewrite (bare_target files y Hb Ht Hy Hry) in Ky. rewrite E in Kx.
    assert (i = j) as <-.
    { eapply NoDup_lookup; [apply (r2_nodup _ _ _ _ HQ)|done..]. }
    exists i. split; by apply in_group_member.
Qed.

(** *** A name matches itself in every directory *)

Lemma plain_char_spec c :
  plain_char c = true →
  is_special c = false ∧ Ascii.eqb c "%" = false ∧ Ascii.eqb c newline = false.
Proof.
  unfold plain_char, not_newline.
  intros [[?%negb_true_iff ?%negb_true_iff]%andb_true_iff ?%negb_true_iff]%andb_true_iff.
  done.
Qed.

Lemma plain_not_quant s :
  all_chars plain_char s = true → starts_with_quant s = false.
Proof.
  destruct s as [|q r]; simpl; [done|]. intros [Hq _]%andb_true_iff.
  destruct (plain_char_spec q Hq) as (Hs & _).
  destruct (parse_quant q) as [k|] eqn:E; [|done].
  apply parse_quant_special in E. congruence.
Qed.

Lemma parse_atom_plain c : is_special c = false → parse_atom c = Some (atom_of c).
Proof.
  intros Hs. unfold parse_atom, atom_of. destruct (Ascii.eqb c "."); [done|].
  by rewrite Hs.
Qed.

Lemma compile_plain s : all_chars plain_char s = true → compile s = Some (lits s).
Proof.
  induction s as [|a r IH]; [done|]. intros Hall.
  pose proof Hall as Hall'. simpl in Hall'. apply andb_true_iff in Hall' as [Ha Hr].
  destruct (plain_char_spec a Ha) as (Hs & _).
  rewrite compile_cons_plain; [|by apply parse_atom_plain|by apply plain_not_quant].
  by rewrite (IH Hr).
Qed.

Lemma replace_plain s : all_chars plain_char s = true → replace "%" ".*" s = s.
Proof.
  induction s as [|a r IH]; simpl; [done|]. intros [Ha Hr]%andb_true_iff.
  destruct (plain_char_spec a Ha) as (_ & -> & _). by rewrite (IH Hr).
Qed.

Lemma atom_of_matches c : Ascii.eqb c newline = false → atom_matches (atom_of c) c = true.
Proof.
  intros Hn. unfold atom_of. destruct (Ascii.eqb c "."); simpl.
  - unfold newline in Hn. by rewrite Hn.
  - apply Ascii.eqb_refl.
Qed.

Lemma matches_lits s rest :
  all_chars plain_char s = true → matches (lits s) (s +:+ rest) = true.
Proof.
  induction s as [|a r IH]; [done|]. intros [Ha Hr]%andb_true_iff.
  destruct (plain_char_spec a Ha) as (_ & _ & Hn).
  change (matches (lits (String a r)) (String a r +:+ rest))
    with (atom_matches (atom_of a) a && matches (lits r) (r +:+ rest)).
  by rewrite atom_of_matches, IH.
Qed.

Lemma matches_any_dir p dir s :
  all_chars not_newline dir = true → matches p s = true →
  matches ((Dot, Star) :: p) (dir +:+ s) = true.
Proof.
  intros Hd Hp. induction dir as [|c dir IH].
  - change (EmptyString +:+ s) with s. rewrite matches_star_unfold. by rewrite Hp.
  - simpl in Hd. apply andb_true_iff in Hd as [Hc Hd].
    change (String c dir +:+ s) with (String c (dir +:+ s)).
    rewrite matches_star_unfold, (IH Hd).
    unfold not_newline, newline in Hc. unfold atom_matches.
    rewrite Hc. apply orb_true_r.
Qed.

(** X5. The pattern of an append file whose base name is made of plain
    characters matches every path that consists of any directory part, a
    slash, that base name and anything after it: a file of the same name
    in whatever directory, and any file whose name begins with it. *)
Theorem name_matches_in_any_directory f dir rest :
  all_chars plain_char (basename (root f)) = true →
  all_chars not_newline dir = true →
  re_match (needle f) (dir +:+ "/" +:+ basename (root f) +:+ rest) = Some true.
Proof.
  intros Hn Hd. unfold needle, needle_of. rewrite (replace_plain _ Hn).
  rewrite (re_match_needle_Some _ (lits (basename (root f))));
    [|by apply plain_not_quant|by apply compile_plain].
  f_equal.
  apply matches_any_dir; [done|].
  change ("/" +:+ basename (root f) +:+ rest)
    with (String "/" (basename (root f) +:+ rest)).
  change (matches ((Lit "/", One) :: lits (basename (root f)))
            (String "/" (basename (root f) +:+ rest)))
    with (atom_matches (Lit "/") "/"
          && matches (lits (basename (root f))) (basename (root f) +:+ rest)).
  by rewrite matches_lits.
Qed.


(** *** The test of [main] and the classification of [group_files] *)

Lemma append_cons a s t : String a s +:+ t = String a (s +:+ t).
Proof. done. Qed.

Lemma append_nil_r s : s +:+ "" = s.
Proof. induction s as [|a s IH]; [done|]. by rewrite append_cons, IH. Qed.

Lemma take_drop_str n s : take_str n s +:+ drop_str n s = s.
Proof.
  revert s. induction n as [|n IH]; intros [|a r]; simpl; [done..|].
  by rewrite append_cons, IH.
Qed.

Lemma splitext_join p : (splitext p).1 +:+ (splitext p).2 = p.
Proof.
  unfold splitext. destruct (_ && _); simpl.
  - unfold slice_to, slice_from. apply take_drop_str.
  - apply append_nil_r.
Qed.

Lemma length_append_str s t : String.length (s +:+ t) = String.length s + String.length t.
Proof. induction s as [|a s IH]; [done|]. rewrite append_cons. simpl. by rewrite IH. Qed.

Lemma drop_length_append s t : drop_str (String.length s) (s +:+ t) = t.
Proof. induction s as [|a s IH]; [by destruct t|]. by rewrite append_cons. Qed.

Lemma endswith_append s t : endswith (s +:+ t) t = true.
Proof.
  unfold endswith. rewrite length_append_str.
  replace (String.length s + String.length t - String.length t)
    with (String.length s) by lia.
  rewrite drop_length_append, String.eqb_refl, andb_true_r.
  apply Nat.leb_le. lia.
Qed.

Lemma last_char_append s t : t ≠ "" → last_char (s +:+ t) = last_char t.
Proof.
  intros Ht. induction s as [|a s IH]; [done|].
  rewrite append_cons. simpl. rewrite IH. destruct (s +:+ t) eqn:E; [|done].
  destruct s; [|done]. change ("" +:+ t) with t in E. congruence.
Qed.

Lemma endswith_last_char s t :
  endswith s t = true → t ≠ "" → last_char s = last_char t.
Proof.
  unfold endswith. intros [_ E%String.eqb_eq]%andb_true_iff Ht.
  rewrite <- (take_drop_str (String.length s - String.length t) s), E.
  by apply last_char_append.
Qed.

Lemma is_append_endswith f : is_append f = true → endswith f ".bbappend" = true.
Proof.
  unfold is_append, ext. intros E%bool_decide_eq_true.
  rewrite <- (splitext_join f), E. apply endswith_append.
Qed.

Lemma is_base_endswith f : is_base f = true → endswith f ".bbappend" = false.
Proof.
  unfold is_base, ext. intros E%bool_decide_eq_true.
  destruct (endswith f ".bbappend") eqn:Hend; [|done].
  apply endswith_last_char in Hend; [|done].
  rewrite <- (splitext_join f), E in Hend.
  rewrite last_char_append in Hend by done. done.
Qed.

(** X6. On every file that the Group Builder puts into a group the test
    [f.endswith(".bbappend")] by which [main] applies its rules agrees
    with the extension by which the builder told append files from base
    files. *)
Theorem grouped_files_are_told_apart_alike files gs i f :
  group_files files = Some gs → in_group gs i f →
  endswith f ".bbappend" = is_append f.
Proof.
  intros (res & Hp & ->)%group_files_Some Hi%in_group_member.
  destruct (round2_end files res Hp) as [HQ _].
  destruct (r2_mem _ _ _ _ HQ i f Hi) as [(Hb & _)|[Ha _]].
  - rewrite (is_base_endswith f Hb). symmetry. by apply base_not_append.
  - by rewrite (is_append_endswith f Ha).
Qed.


(** *** Files with another extension *)

Lemma pass1_filter files res :
  fold_left pass1_step (filter (λ f, recognised f = true) files) res
  = fold_left pass1_step files res.
Proof.
  revert res. induction files as [|z files IH]; intros res; [done|].
  destruct (decide (recognised z = true)) as [Hz|Hz].
  - rewrite filter_cons_True by done. simpl. apply IH.
  - rewrite filter_cons_False by done. simpl. rewrite <- IH. f_equal.
    rewrite pass1_step_unfold.
    apply not_true_is_false, orb_false_iff in Hz as [-> _]. done.
Qed.

Lemma pass2_filter files res :
  pass2 (filter (λ f, recognised f = true) files) res = pass2 files res.
Proof.
  revert res. induction files as [|z files IH]; intros res; [done|].
  destruct (decide (recognised z = true)) as [Hz|Hz].
  - rewrite filter_cons_True by done. simpl.
    destruct (pass2_step res z); [apply IH|done].
  - rewrite filter_cons_False by done. simpl. rewrite pass2_step_unfold.
    apply not_true_is_false, orb_false_iff in Hz as [_ ->]. apply IH.
Qed.

Lemma index_filter_le (P : string → Prop) `{∀ x, Decision (P x)} files x y :
  P x → P y →
  index (filter P files) x ≤ index (filter P files) y
  ↔ index files x ≤ index files y.
Proof.
  intros Hx Hy. induction files as [|z files IH]; [done|].
  destruct (decide (P z)) as [Hz|Hz].
  - rewrite filter_cons_True by done. simpl.
    destruct (decide (z = x)), (decide (z = y)); lia.
  - rewrite filter_cons_False by done. simpl.
    destruct (decide (z = x)) as [->|_]; [done|].
    destruct (decide (z = y)) as [->|_]; [done|]. lia.
Qed.

Lemma StronglySorted_change {A} (R R' : relation A) l :
  StronglySorted R l → (∀ x y, x ∈ l → y ∈ l → R x y → R' x y) →
  StronglySorted R' l.
Proof.
  induction 1 as [|x l Hl IH Hall]; intros Himp; constructor.
  - apply IH. intros y z Hy Hz. apply Himp; by right.
  - rewrite Forall_forall in *. intros y Hy. apply Himp; [left|by right|by apply Hall].
Qed.

Lemma sorted_by_index_filter files v :
  (∀ x, x ∈ v → x ∈ files ∧ recognised x = true) →
  sorted_by_index (filter (λ f, recognised f = true) files) v
  = sorted_by_index files v.
Proof.
  intros Hv. unfold sorted_by_index.
  apply (StronglySorted_unique_strong (index_le files)).
  - intros x y Hx Hy H1 H2. unfold index_le in *.
    rewrite merge_sort_Permutation, elem_of_elements in Hx, Hy.
    apply (index_inj files); [by apply Hv..|lia].
  - eapply StronglySorted_change; [apply StronglySorted_merge_sort; apply _|].
    intros x y Hx Hy. unfold index_le.
    rewrite merge_sort_Permutation, elem_of_elements in Hx, Hy.
    intros Hle. by apply (index_filter_le (λ f, recognised f = true) files x y);
      [apply Hv..|].
  - apply StronglySorted_merge_sort; apply _.
  - by rewrite !merge_sort_Permutation.
Qed.

(** X7. Files with another extension, or none, have no influence on the
    grouping: leaving them out of the input list gives the same groups,
    each with the same files in the same order. *)
Theorem other_files_do_not_matter files :
  group_files (filter (λ f, recognised f = true) files) = group_files files.
Proof.
  unfold group_files, pass1. rewrite pass1_filter, pass2_filter.
  fold (pass1 files).
  destruct (pass2 files (pass1 files)) as [res|] eqn:Hp; [|done].
  f_equal. destruct (round2_end files res Hp) as [HQ _].
  apply map_ext_in. intros [k v] Hin%list_elem_of_In. simpl.
  apply list_elem_of_lookup_1 in Hin as [i Hi].
  apply sorted_by_index_filter. intros x Hx.
  assert (member res i x) as Hm by (by exists (k, v)).
  split; [by eapply member_in_files|].
  unfold recognised.
  destruct (r2_mem _ _ _ _ HQ i x Hm) as [(-> & _)|[-> _]]; [done|apply orb_true_r].
Qed.

(** *** The theorems at concrete lists *)

Lemma bare_names_are_grouped_by_key_witness :
  ∃ gs, group_files ["a_1.bb"; "a%.bbappend"; "b_2.bb"; "a_2.bb"] = Some gs
        ∧ ∀ x y, x ∈ ["a_1.bb"; "a%.bbappend"; "b_2.bb"; "a_2.bb"] →
            y ∈ ["a_1.bb"; "a%.bbappend"; "b_2.bb"; "a_2.bb"] →
            recognised x = true → recognised y = true →
            (∃ i, in_group gs i x ∧ in_group gs i y) ↔ key_of x = key_of y.
Proof.
  apply (bare_names_are_grouped_by_key ["a_1.bb"; "a%.bbappend"; "b_2.bb"; "a_2.bb"]).
  - vm_compute. reflexivity.
  - vm_compute. reflexivity.
Defined.

Lemma name_matches_in_any_directory_witness :
  re_match (needle "layer/a_1.0.bbappend")
    ("meta/recipes" +:+ "/" +:+ basename (root "layer/a_1.0.bbappend") +:+ "rc.bb")
  = Some true.
Proof.
  apply (name_matches_in_any_directory "layer/a_1.0.bbappend" "meta/recipes" "rc.bb").
  - vm_compute. reflexivity.
  - vm_compute. reflexivity.
Defined.

Lemma grouped_files_are_told_apart_alike_witness :
  endswith "d/a_1.0.bbappend" ".bbappend" = is_append "d/a_1.0.bbappend".
Proof.
  apply (grouped_files_are_told_apart_alike recipe_and_append
           [["d/a_1.0.bb"; "d/a_1.0.bbappend"]; ["d/b_2.0.bb"]] 0).
  - vm_compute. reflexivity.
  - exists ["d/a_1.0.bb"; "d/a_1.0.bbappend"]. split; [reflexivity|]. by_evaluation.
Defined.

End NamesFacts.

(** ** What a run does and what it never does *)

Module RunsFacts.
Import PyStr Pipeline PipelineFacts Runs.

Section steps.
Context `{Collaborators}.
Variable a : args.
Variable rules : list (rule stash key).

Lemma run_ok_ret {A} (x : A) : run_ok a rules (ret x).
Proof. intros w. exists []. simpl. by rewrite app_nil_r. Qed.

Lemma run_ok_raise {A} e : run_ok a rules (raise (A := A) e).
Proof. intros w. exists []. simpl. by rewrite app_nil_r. Qed.

Lemma run_ok_lift {A} (o : outcome A) : run_ok a rules (lift o).
Proof. intros w. exists []. simpl. by rewrite app_nil_r. Qed.

Lemma run_ok_emit ev : expected a rules ev → run_ok a rules (emit ev).
Proof. intros Hev w. exists [ev]. simpl. split_and!; [done|by constructor|done]. Qed.

Lemma run_ok_message line : run_ok a rules (unless (quiet a) (emit (Print line))).
Proof.
  unfold unless. destruct (quiet a) eqn:Hq; [apply run_ok_ret|].
  by apply run_ok_emit.
Qed.

Lemma run_ok_bind_post {A B} (Q : A → Prop) (m : M A) (k : A → M B) :
  run_ok a rules m →
  (∀ w x w', m w = (Val x, w') → Q x) →
  (∀ x, Q x → run_ok a rules (k x)) →
  run_ok a rules (bind m k).
Proof.
  intros Hm HQ Hk w. destruct (Hm w) as (evs1 & E1 & F1 & S1).
  unfold bind. destruct (m w) as [[x|e] w1] eqn:Em; simpl in *.
  - destruct (Hk x (HQ w x w1 Em) w1) as (evs2 & E2 & F2 & S2).
    exists (evs1 ++ evs2). split_and!.
    + by rewrite E2, E1, app_assoc.
    + by apply Forall_app.
    + intros Hf. by rewrite S2, S1.
  - by exists evs1.
Qed.

Lemma run_ok_bind {A B} (m : M A) (k : A → M B) :
  run_ok a rules m → (∀ x, run_ok a rules (k x)) → run_ok a rules (bind m k).
Proof.
  intros Hm Hk. apply (run_ok_bind_post (λ _, True)); [done|done|].
  intros x _. apply Hk.
Qed.

Lemma run_ok_get_fs {B} (k : gmap string string → M B) :
  (∀ m, run_ok a rules (k m)) → run_ok a rules (bind get_fs k).
Proof. intros Hk w. unfold bind, get_fs. apply Hk. Qed.

(** **** Ingestion *)

Lemma ingest_run group s : run_ok a rules (ingest a group s).
Proof.
  revert s. induction group as [|f group IH]; intros s; simpl.
  - apply run_ok_ret.
  - apply run_ok_bind; [by apply run_ok_emit|]. intros _.
    apply run_ok_get_fs. intros m.
    destruct (AddFile m s f) as [s'|[msg| |msg]].
    + apply IH.
    + apply run_ok_bind; [apply run_ok_message|]. intros _. apply IH.
    + apply run_ok_raise.
    + apply run_ok_raise.
Qed.

(** **** The rules *)

Lemma fix_part_run f r s fixedfiles :
  r ∈ rules → applicable f r = true →
  run_ok a rules (fix_part a f r s fixedfiles).
Proof.
  intros Hr Happ. unfold fix_part. destruct (fix_mode a) eqn:Hfix; [|apply run_ok_ret].
  apply run_ok_bind.
  { apply run_ok_emit. simpl. split; [done|]. by exists r. }
  intros _. apply run_ok_get_fs. intros m.
  apply run_ok_bind; [apply run_ok_lift|]. intros xs. apply run_ok_ret.
Qed.

Lemma check_part_run f r s issues :
  r ∈ rules → applicable f r = true →
  run_ok a rules (check_part f r s issues).
Proof.
  intros Hr Happ. unfold check_part.
  apply run_ok_bind.
  { apply run_ok_emit. simpl. by exists r. }
  intros _. apply run_ok_get_fs. intros m.
  apply run_ok_bind; [apply run_ok_lift|]. intros ys. apply run_ok_ret.
Qed.

Lemma run_rule_run f r st : r ∈ rules → run_ok a rules (run_rule a f r st).
Proof.
  intros Hr. unfold run_rule. destruct st as [[s issues] fixedfiles].
  destruct (applicable f r) eqn:Happ; [|apply run_ok_ret].
  apply run_ok_bind; [by apply fix_part_run|]. intros sf.
  apply run_ok_bind; [by apply check_part_run|]. intros si. apply run_ok_ret.
Qed.

Lemma run_rules_run f rs st :
  (∀ r, r ∈ rs → r ∈ rules) → run_ok a rules (run_rules a f rs st).
Proof.
  revert st. induction rs as [|r rs IH]; intros st Hsub; simpl.
  - apply run_ok_ret.
  - apply run_ok_bind; [apply run_rule_run, Hsub; left|].
    intros st'. apply IH. intros r' Hr'. apply Hsub. by right.
Qed.

Lemma check_files_run index total _files st :
  run_ok a rules (check_files a rules index total _files st).
Proof.
  revert index st. induction _files as [|f rest IH]; intros index st; simpl.
  - apply run_ok_ret.
  - apply run_ok_bind; [by apply run_rules_run|]. intros st'.
    apply run_ok_bind; [apply run_ok_message|]. intros _. apply IH.
Qed.

(** Outside fix mode [fixedfiles] stays as it is. *)
Lemma run_rule_no_fix f r st w st' w' :
  fix_mode a = false → run_rule a f r st w = (Val st', w') → st'.2 = st.2.
Proof.
  intros Hfix. unfold run_rule, fix_part, check_part. destruct st as [[s issues] fixedfiles].
  rewrite Hfix. destruct (applicable f r); [|by intros [= <- _]].
  unfold bind, ret, emit, get_fs, lift. simpl.
  destruct (r_check r (fs w) f s) as [ys|e]; [|done]. by intros [= <- _].
Qed.

Lemma run_rules_no_fix f rs st w st' w' :
  fix_mode a = false → run_rules a f rs st w = (Val st', w') → st'.2 = st.2.
Proof.
  intros Hfix. revert st w. induction rs as [|r rs IH]; intros st w; simpl.
  - by intros [= <- _].
  - unfold bind. destruct (run_rule a f r st w) as [[st1|e] w1] eqn:E; [|done].
    intros E2. rewrite (IH _ _ E2). by eapply run_rule_no_fix.
Qed.

Lemma check_files_no_fix rs index total _files st w st' w' :
  fix_mode a = false →
  check_files a rs index total _files st w = (Val st', w') → st'.2 = st.2.
Proof.
  intros Hfix. revert index st w.
  induction _files as [|f rest IH]; intros index st w; simpl.
  - by intros [= <- _].
  - unfold bind at 1. destruct (run_rules a f rs st w) as [[st1|e] w1] eqn:E; [|done].
    unfold bind. rewrite unless_emit. intros E2.
    rewrite (IH _ _ _ E2). by eapply run_rules_no_fix.
Qed.

(** **** The fix transaction *)

Lemma os_rename_run i :
  fix_mode a = true → nobackup a = false →
  run_ok a rules (os_rename i (i +:+ ".bak")).
Proof.
  intros Hfix Hnb w. unfold os_rename, bind, get_fs. simpl.
  destruct (fs w !! i) as [c|]; simpl.
  - exists [Rename i (i +:+ ".bak")]. split_and!; [done| |congruence].
    by repeat constructor.
  - exists []. split_and!; [by rewrite app_nil_r|done|done].
Qed.

Lemma write_file_run path content :
  fix_mode a = true → run_ok a rules (write_file path content).
Proof.
  intros Hfix w. unfold write_file, bind, get_fs. simpl.
  destruct (can_open_w (fs w) path); simpl.
  - exists [WriteFile path content]. split_and!; [done| |congruence].
    by repeat constructor.
  - exists []. split_and!; [by rewrite app_nil_r|done|done].
Qed.

Lemma rewrite_file_run s i : fix_mode a = true → run_ok a rules (rewrite_file a s i).
Proof.
  intros Hfix. unfold rewrite_file. apply run_ok_bind.
  { unfold unless. destruct (nobackup a) eqn:Hnb; [apply run_ok_ret|].
    by apply os_rename_run. }
  intros _. apply run_ok_bind; [by apply write_file_run|]. intros _.
  apply run_ok_message.
Qed.

Lemma rewrite_files_run s items :
  fix_mode a = true → run_ok a rules (rewrite_files a s items).
Proof.
  intros Hfix. induction items as [|i items IH]; simpl; [apply run_ok_ret|].
  apply run_ok_bind; [by apply rewrite_file_run|]. intros _. apply IH.
Qed.

Lemma fix_transaction_run s fixedfiles :
  (fix_mode a = false → fixedfiles = []) →
  run_ok a rules (fix_transaction a s fixedfiles).
Proof.
  destruct (fix_mode a) eqn:Hfix.
  - intros _. induction fixedfiles as [|f rest IH]; [apply run_ok_ret|].
    change (fix_transaction a s (f :: rest))
      with (bind (rewrite_files a s (f :: GetLinksForFile s f))
                 (λ _, fix_transaction a s rest)).
    apply run_ok_bind; [by apply rewrite_files_run|]. intros _. apply IH.
  - intros ->; [|done]. apply run_ok_ret.
Qed.

(** **** The groups *)

Lemma list_set_nil : list_set (A := string) [] = [].
Proof. unfold list_set. simpl. apply elements_empty. Qed.

Lemma process_group_run group acc :
  (fix_mode a = false → acc.2 = []) →
  run_ok a rules (process_group a rules group acc).
Proof.
  intros Hacc. unfold process_group.
  apply run_ok_bind; [apply ingest_run|]. intros s.
  apply run_ok_bind; [apply run_ok_lift|]. intros s'.
  apply (run_ok_bind_post (λ st, fix_mode a = false → st.2 = [])).
  - apply check_files_run.
  - intros w st w' E Hfix. rewrite (check_files_no_fix _ _ _ _ _ _ _ _ Hfix E).
    simpl. by apply Hacc.
  - intros st Hst. apply run_ok_bind; [|intros _; apply run_ok_ret].
    apply fix_transaction_run. intros Hfix. rewrite (Hst Hfix). apply list_set_nil.
Qed.

Lemma process_group_no_fix group acc w acc' w' :
  fix_mode a = false → acc.2 = [] →
  process_group a rules group acc w = (Val acc', w') → acc'.2 = [].
Proof.
  intros Hfix Hacc. unfold process_group, bind.
  destruct (ingest a group (Stash a) w) as [[s|e] w1]; [|done].
  unfold lift. destruct (Finalize s) as [s'|e]; [|done].
  destruct (check_files _ _ _ _ _ _ w1) as [[st|e] w2] eqn:E; [|done].
  apply (check_files_no_fix _ _ _ _ _ _ _ _ Hfix) in E. simpl in E.
  rewrite E, Hacc, list_set_nil. simpl. unfold ret. by intros [= <- _].
Qed.

Lemma process_groups_run groups acc :
  (fix_mode a = false → acc.2 = []) →
  run_ok a rules (process_groups a rules groups acc).
Proof.
  revert acc. induction groups as [|g groups IH]; intros acc Hacc; simpl.
  - apply run_ok_ret.
  - apply (run_ok_bind_post (λ acc', fix_mode a = false → acc'.2 = [])).
    + by apply process_group_run.
    + intros w acc' w' E Hfix. eapply process_group_no_fix; [done|by apply Hacc|done].
    + intros acc' Hacc'. by apply IH.
Qed.


(** **** Up to the report *)

Lemma prepare_run : run_ok a rules (prepare a).
Proof.
  unfold prepare. apply run_ok_bind; [apply run_ok_lift|]. intros loaded.
  apply run_ok_bind; [apply run_ok_message|]. intros _.
  destruct (Grouping.group_files (files a)); [apply run_ok_ret|apply run_ok_raise].
Qed.

Lemma prepare_val w rg w' :
  prepare a w = (Val rg, w') →
  rg.1 = active_rules a ∧ Grouping.group_files (files a) = Some rg.2.
Proof.
  unfold prepare, active_rules, bind, lift.
  destruct (load_rules a) as [loaded|e]; [|done].
  rewrite unless_emit.
  destruct (Grouping.group_files (files a)) as [groups|]; [|done].
  unfold ret. by intros [= <- _].
Qed.

End steps.

Section extras.
Context `{Collaborators}.
Variable a : args.

Lemma collect_run : run_ok a (active_rules a) (collect a).
Proof.
  unfold collect.
  apply (run_ok_bind_post a _ (λ rg, rg.1 = active_rules a)).
  - apply prepare_run.
  - intros w rg w' E. by destruct (prepare_val a w rg w' E).
  - intros rg ->. apply run_ok_bind; [|intros acc; apply run_ok_ret].
    by apply process_groups_run.
Qed.

Lemma not_suppressed_spec (r : rule stash key) y :
  not_suppressed a r = true → y ∈ GetIDs r → y ∉ suppress a.
Proof.
  unfold not_suppressed. intros Hn%negb_true_iff Hy Hs.
  assert (existsb (λ y, bool_decide (y ∈ suppress a)) (GetIDs r) = true) as E.
  { apply existsb_exists. exists y. split; [by apply list_elem_of_In|].
    by apply bool_decide_eq_true. }
  congruence.
Qed.

Lemma active_rules_spec (r : rule stash key) :
  r ∈ active_rules a → not_suppressed a r = true.
Proof.
  unfold active_rules. destruct (load_rules a) as [loaded|e].
  - intros [Hr _]%list_elem_of_filter. by apply Is_true_eq_true.
  - by intros ?%elem_of_nil.
Qed.

(** X8. A rule one of whose identifiers is suppressed is never used: up
    to the report, no [fix] and no [check] is called for a rule that has
    an identifier named by [--suppress]. *)
Theorem suppressed_rules_are_never_called w :
  ∃ evs, log (collect a w).2 = log w ++ evs
         ∧ ∀ ids f, CallFix ids f ∈ evs ∨ CallCheck ids f ∈ evs →
             ∀ y, y ∈ ids → y ∉ suppress a.
Proof.
  destruct (collect_run w) as (evs & E & Hall & _). exists evs. split; [done|].
  rewrite Forall_forall in Hall.
  intros ids f [Hev|Hev] y Hy; apply Hall in Hev; simpl in Hev.
  - destruct Hev as (_ & r & Hr & <- & _).
    apply (not_suppressed_spec r); [by apply active_rules_spec|done].
  - destruct Hev as (r & Hr & <- & _).
    apply (not_suppressed_spec r); [by apply active_rules_spec|done].
Qed.

Lemma applicable_spec (r : rule stash key) f :
  applicable f r = true →
  (endswith f ".bbappend" = true → OnAppend r = true)
  ∧ (endswith f ".bbappend" = false → OnlyAppend r = false).
Proof.
  unfold applicable. destruct (OnAppend r), (OnlyAppend r), (endswith f ".bbappend"); done.
Qed.

(** X9. Over the loop of a group, a rule's operations are only called on
    files the rule is meant for: on a file ending in [.bbappend] only
    rules with [OnAppend], on any other file never a rule with
    [OnlyAppend]; and every call is for a rule of the list. *)
Theorem rules_are_called_on_their_files_only rules index total _files st w :
  ∃ evs, log (check_files a rules index total _files st w).2 = log w ++ evs
         ∧ ∀ ids f, CallFix ids f ∈ evs ∨ CallCheck ids f ∈ evs →
             ∃ r, r ∈ rules ∧ GetIDs r = ids
                  ∧ (endswith f ".bbappend" = true → OnAppend r = true)
                  ∧ (endswith f ".bbappend" = false → OnlyAppend r = false).
Proof.
  destruct (check_files_run a rules index total _files st w) as (evs & E & Hall & _).
  exists evs. split; [done|]. rewrite Forall_forall in Hall.
  intros ids f [Hev|Hev]; apply Hall in Hev; simpl in Hev.
  - destruct Hev as (_ & r & Hr & Hid & Happ). exists r.
    destruct (applicable_spec r f Happ). done.
  - destruct Hev as (r & Hr & Hid & Happ). exists r.
    destruct (applicable_spec r f Happ). done.
Qed.

(** X10. Without [--fix], up to the report the run leaves the file
    system as it found it: it calls no [fix], renames nothing and writes
    nothing. *)
Theorem without_fix_nothing_is_written w :
  fix_mode a = false →
  fs (collect a w).2 = fs w
  ∧ ∃ evs, log (collect a w).2 = log w ++ evs
           ∧ (∀ ids f, CallFix ids f ∉ evs)
           ∧ (∀ src dst, Rename src dst ∉ evs)
           ∧ (∀ path content, WriteFile path content ∉ evs).
Proof.
  intros Hfix. destruct (collect_run w) as (evs & E & Hall & Hfs).
  split; [by apply Hfs|]. exists evs. split; [done|].
  rewrite Forall_forall in Hall.
  split_and!; intros ? ? Hev; apply Hall in Hev; simpl in Hev.
  - destruct Hev as [? _]. congruence.
  - destruct Hev as [? _]. congruence.
  - congruence.
Qed.

Lemma report_events issues w :
  ∃ evs, log (report a issues w).2 = log w ++ evs
         ∧ Forall (λ ev, ∀ line, ev ≠ Print line) evs
         ∧ ((report a issues w).1 = Val tt ∨ evs = []).
Proof.
  unfold report. destruct (output a) as [p|].
  - unfold write_file, bind, get_fs. simpl. destruct (can_open_w (fs w) p); simpl.
    + eexists [_]. split_and!; [done| |by left]. by repeat constructor.
    + exists []. split_and!; [by rewrite app_nil_r|done|by right].
  - eexists [_]. simpl. split_and!; [done| |by left]. by repeat constructor.
Qed.

(** X11. In quiet mode the body of the [try] prints no message of its
    own: whatever the rules answer and however the run ends, [main] calls
    [print] at most in its handler. *)
Theorem quiet_run_prints_nothing w :
  quiet a = true →
  ∃ evs, log (try_body a w).2 = log w ++ evs ∧ ∀ line, Print line ∉ evs.
Proof.
  intros Hq. unfold try_body, bind.
  destruct (collect_run w) as (evs1 & E1 & Hall1 & _).
  assert (∀ line, Print line ∉ evs1) as Hno1.
  { intros line Hev. rewrite Forall_forall in Hall1. apply Hall1 in Hev.
    simpl in Hev. congruence. }
  destruct (collect a w) as [[issues|e] w1]; simpl in E1; [|by exists evs1].
  destruct (report_events (sorted_issues issues) w1) as (evs2 & E2 & Hall2 & _).
  destruct (report a (sorted_issues issues) w1) as [[[]|e] w2]; simpl in *.
  - exists (evs1 ++ evs2). split; [by rewrite E2, E1, app_assoc|].
    intros line [Hev|Hev]%elem_of_app; [by apply (Hno1 line)|].
    rewrite Forall_forall in Hall2. by apply (Hall2 _ Hev line).
  - exists (evs1 ++ evs2). split; [by rewrite E2, E1, app_assoc|].
    intros line [Hev|Hev]%elem_of_app; [by apply (Hno1 line)|].
    rewrite Forall_forall in Hall2. by apply (Hall2 _ Hev line).
Qed.

(** X12. When [main] ends through its handler, the report has not been
    written to [sys.stderr]: the findings collected before the exception
    are not shown there. *)
Theorem handled_run_reports_nothing w w' :
  main a w = (Returned, w') →
  ∃ evs, log w' = log w ++ evs ∧ ∀ text, WriteStderr text ∉ evs.
Proof.
  unfold main, try_body, bind.
  destruct (collect_run w) as (evs1 & E1 & Hall1 & _).
  assert (∀ text, WriteStderr text ∉ evs1) as Hno1.
  { intros text Hev. rewrite Forall_forall in Hall1. by apply Hall1 in Hev. }
  destruct (collect a w) as [[issues|e] w1]; simpl in E1.
  - destruct (report_events (sorted_issues issues) w1) as (evs2 & E2 & _ & Hval).
    destruct (report a (sorted_issues issues) w1) as [[[]|e] w2]; simpl in *; [done|].
    destruct Hval as [?| ->]; [done|]. rewrite app_nil_r in E2.
    intros [= <-]. eexists. split.
    + simpl. rewrite E2, E1, <- !app_assoc. reflexivity.
    + intros text [Hev|Hev]%elem_of_app; [by apply (Hno1 text)|].
      apply elem_of_cons in Hev as [?|Hev]; [done|].
      by apply list_elem_of_singleton in Hev.
  - intros [= <-]. eexists. split.
    + simpl. rewrite E1, <- !app_assoc. reflexivity.
    + intros text [Hev|Hev]%elem_of_app; [by apply (Hno1 text)|].
      apply elem_of_cons in Hev as [?|Hev]; [done|].
      by apply list_elem_of_singleton in Hev.
Qed.

(** X13. An ingestion that comes to its end has offered every file of
    the group to the stash, once each and in the order of the group, and
    has left the file system as it was. *)
Theorem ingest_offers_every_file group s w s' w' :
  ingest a group s w = (Val s', w') →
  fs w' = fs w
  ∧ ∃ evs, log w' = log w ++ evs ∧ added evs = group.
Proof.
  revert s w. induction group as [|f group IH]; intros s w; simpl.
  - intros [= <- <-]. split; [done|]. exists []. by rewrite app_nil_r.
  - unfold bind, emit, get_fs. simpl.
    destruct (AddFile (fs w) s f) as [s1|[msg| |msg]]; [| |done..].
    + intros E. destruct (IH _ _ E) as (Hfs & evs & Hlog & Hadd). split; [done|].
      exists (CallAddFile f :: evs). split.
      * rewrite Hlog. simpl. by rewrite <- app_assoc.
      * simpl. by rewrite Hadd.
    + unfold unless. destruct (quiet a); simpl.
      * intros E. destruct (IH _ _ E) as (Hfs & evs & Hlog & Hadd). split; [done|].
        exists (CallAddFile f :: evs). split.
        -- rewrite Hlog. simpl. by rewrite <- app_assoc.
        -- simpl. by rewrite Hadd.
      * intros E. destruct (IH _ _ E) as (Hfs & evs & Hlog & Hadd). split; [done|].
        exists (CallAddFile f :: Print ("Can't open/read: " +:+ msg) :: evs). split.
        -- rewrite Hlog. simpl. by rewrite <- !app_assoc.
        -- simpl. by rewrite Hadd.
Qed.


(** **** What is carried from group to group *)

Lemma process_group_grows rs group (acc acc' : list finding * list string) w w' :
  process_group a rs group acc w = (Val acc', w') →
  acc.1 `prefix_of` acc'.1 ∧ ∀ x, x ∈ acc.2 → x ∈ acc'.2.
Proof.
  unfold process_group, bind.
  destruct (ingest a group (Stash a) w) as [[s|e] w1]; [|done].
  unfold lift. destruct (Finalize s) as [s'|e]; [|done].
  destruct (check_files _ _ _ _ _ _ w1) as [[st|e] w2] eqn:E; [|done].
  destruct (fix_transaction a st.1.1 (list_set st.2) w2) as [[[]|e] w3]; [|done].
  unfold ret. intros [= <- _]. simpl.
  destruct (check_files_grows _ _ _ _ _ _ _ _ _ E) as [P1 P2]. simpl in *.
  split; [done|]. intros x Hx. apply list_set_elem.
  destruct P2 as [k ->]. set_solver.
Qed.

(** X16. Over the groups the findings are only added to: what was
    collected before is still there, in the same order, after all groups;
    and no identifier ever leaves [fixedfiles]. *)
Theorem findings_are_only_added rs groups (acc acc' : list finding * list string) w w' :
  process_groups a rs groups acc w = (Val acc', w') →
  acc.1 `prefix_of` acc'.1 ∧ ∀ x, x ∈ acc.2 → x ∈ acc'.2.
Proof.
  revert acc w. induction groups as [|g groups IH]; intros acc w; simpl.
  - by intros [= <- _].
  - unfold bind. destruct (process_group a rs g acc w) as [[acc1|e] w1] eqn:E; [|done].
    intros E2. destruct (process_group_grows _ _ _ _ _ _ E) as [P1 P2].
    destruct (IH _ _ E2) as [Q1 Q2]. split; [by etrans|]. auto.
Qed.

(** X15. [fixedfiles] is not emptied between the groups: every file that
    was marked as fixed for an earlier group is gone through again by the
    fix transaction of each later group that comes to its end, renamed
    and written anew from the stash of that group. *)
Theorem fixed_files_are_rewritten_in_later_groups rs group
    (acc acc' : list finding * list string) w w' :
  process_group a rs group acc w = (Val acc', w') →
  ∃ s evs, log w' = log w ++ evs
           ∧ ∀ x, x ∈ acc.2 →
               x ∈ acc'.2 ∧ ∃ pre post, evs = pre ++ rewrite_events a s x ++ post.
Proof.
  intros Hpg. destruct (process_group_grows _ _ _ _ _ _ Hpg) as [_ Hkeep].
  revert Hpg. unfold process_group, bind.
  destruct (ingest_run a rs group (Stash a) w) as (evs1 & E1 & _).
  destruct (ingest a group (Stash a) w) as [[s|e] w1]; [|done]. simpl in E1.
  unfold lift. destruct (Finalize s) as [s'|e]; [|done].
  set (_files := list_set (GetRecipes s' ++ GetLoneAppends s')).
  destruct (check_files_run a rs 0 (length _files) _files (s', acc.1, acc.2) w1)
    as (evs2 & E2 & _).
  destruct (check_files a rs 0 (length _files) _files (s', acc.1, acc.2) w1)
    as [[st|e] w2] eqn:E; [|done]. simpl in E2.
  destruct (fix_transaction a st.1.1 (list_set st.2) w2) as [[[]|e] w3] eqn:Et; [|done].
  unfold ret. intros [= <- <-].
  rewrite fix_transaction_items in Et.
  destruct (rewrite_files_val _ _ _ _ _ Et) as (Hlog & _).
  exists st.1.1, (evs1 ++ evs2 ++
    flat_map (rewrite_events a st.1.1) (linked_items st.1.1 (list_set st.2))).
  split; [by rewrite Hlog, E2, E1, <- !app_assoc|].
  intros x Hx. split; [by apply Hkeep|].
  destruct (check_files_grows _ _ _ _ _ _ _ _ _ E) as [_ [k Hk]]. simpl in Hk.
  assert (x ∈ linked_items st.1.1 (list_set st.2)) as Hin.
  { apply linked_items_elem. exists x. split; [|left].
    apply list_set_elem. rewrite Hk. set_solver. }
  apply list_elem_of_split in Hin as (l1 & l2 & ->).
  exists (evs1 ++ evs2 ++ flat_map (rewrite_events a st.1.1) l1),
         (flat_map (rewrite_events a st.1.1) l2).
  rewrite flat_map_app. simpl. by rewrite <- !app_assoc.
Qed.

(** **** A file that comes up twice in a transaction *)

Lemma bak_ne (i : string) : i +:+ ".bak" ≠ i.
Proof.
  intros E. apply (f_equal String.length) in E.
  induction i as [|c i IH]; simpl in E; [done|]. apply IH. by injection E.
Qed.

Lemma append_inj_r (s s' t : string) : s +:+ t = s' +:+ t → s = s'.
Proof.
  assert (∀ u v : string, String.length (u +:+ v) = String.length u + String.length v)
    as Hlen.
  { intros u v. induction u as [|c u IH]; simpl; [done|]. by rewrite IH. }
  revert s'. induction s as [|c s IH]; intros [|c' s'] E.
  - done.
  - apply (f_equal String.length) in E. rewrite !Hlen in E. simpl in E. lia.
  - apply (f_equal String.length) in E. rewrite !Hlen in E. simpl in E. lia.
  - injection E as -> E. by rewrite (IH _ E).
Qed.

Lemma rewrite_file_fs s i w w' :
  nobackup a = false →
  rewrite_file a s i w = (Val tt, w') →
  ∃ c0, fs w !! i = Some c0
        ∧ fs w' = <[i := String.concat "" (GetItemsFor s i)]>
                    (<[i +:+ ".bak" := c0]> (delete i (fs w))).
Proof.
  intros Hnb. unfold rewrite_file, os_rename, write_file, unless.
  unfold bind, get_fs, set_fs, emit, ret, raise. rewrite Hnb. simpl.
  destruct (fs w !! i) as [c|] eqn:Hc; simpl; [|done].
  destruct (can_open_w (<[i +:+ ".bak" := c]> (delete i (fs w))) i); simpl; [|done].
  destruct (quiet a); intros [= <-]; simpl; by exists c.
Qed.

Section twice.
Variable s : stash.
Variable i : string.

Local Abbreviation c := (String.concat "" (GetItemsFor s i)).

Lemma rewrite_file_same w w' :
  nobackup a = false → rewrite_file a s i w = (Val tt, w') →
  fs w' !! i = Some c
  ∧ ∀ c0, fs w !! i = Some c0 → fs w' !! (i +:+ ".bak") = Some c0.
Proof.
  intros Hnb E. destruct (rewrite_file_fs s i w w' Hnb E) as (c0 & Hc0 & ->).
  split; [by rewrite lookup_insert_eq|].
  intros c1 Hc1. rewrite lookup_insert_ne by (intros E'; by apply (bak_ne i)).
  rewrite lookup_insert_eq. congruence.
Qed.

Lemma rewrite_file_other j w w' :
  nobackup a = false → j ≠ i → apart i j →
  rewrite_file a s j w = (Val tt, w') →
  fs w' !! i = fs w !! i ∧ fs w' !! (i +:+ ".bak") = fs w !! (i +:+ ".bak").
Proof.
  intros Hnb Hne [H1 H2] E. destruct (rewrite_file_fs s j w w' Hnb E) as (c0 & Hc0 & ->).
  split.
  - rewrite lookup_insert_ne by done. rewrite lookup_insert_ne by done.
    by rewrite lookup_delete_ne.
  - rewrite lookup_insert_ne by done.
    rewrite lookup_insert_ne by (intros E'%append_inj_r; done).
    by rewrite lookup_delete_ne.
Qed.

Lemma rewrite_files_keep_one items w w' :
  nobackup a = false → Forall (apart i) items →
  fs w !! i = Some c →
  rewrite_files a s items w = (Val tt, w') → fs w' !! i = Some c.
Proof.
  intros Hnb Hall. revert w. induction Hall as [|j items Hj _ IH]; intros w Hi; simpl.
  - by intros [= <-].
  - unfold bind. destruct (rewrite_file a s j w) as [[[]|e] w1] eqn:E; [|done].
    apply IH. destruct (decide (j = i)) as [->|Hne].
    + by destruct (rewrite_file_same w w1 Hnb E).
    + destruct (rewrite_file_other j w w1 Hnb Hne Hj E) as [-> _]. done.
Qed.

Lemma rewrite_files_keep_both items w w' :
  nobackup a = false → Forall (apart i) items →
  fs w !! i = Some c → fs w !! (i +:+ ".bak") = Some c →
  rewrite_files a s items w = (Val tt, w') →
  fs w' !! i = Some c ∧ fs w' !! (i +:+ ".bak") = Some c.
Proof.
  intros Hnb Hall. revert w. induction Hall as [|j items Hj _ IH]; intros w Hi Hb; simpl.
  - by intros [= <-].
  - unfold bind. destruct (rewrite_file a s j w) as [[[]|e] w1] eqn:E; [|done].
    destruct (decide (j = i)) as [->|Hne].
    + destruct (rewrite_file_same w w1 Hnb E) as [Hi1 Hb1]. apply IH; [done|].
      by apply Hb1.
    + destruct (rewrite_file_other j w w1 Hnb Hne Hj E) as [E1 E2].
      apply IH; congruence.
Qed.

End twice.

(** X14. A file that comes up twice among the files of one fix
    transaction (as a fixed file and as a link of another one, say) loses
    its original content: after the transaction its backup holds the
    rewritten content, the same as the file itself. *)
Theorem second_rewrite_overwrites_backup s fixedfiles i l1 l2 l3 w w' :
  nobackup a = false →
  linked_items s fixedfiles = l1 ++ i :: l2 ++ i :: l3 →
  Forall (apart i) (l2 ++ i :: l3) →
  fix_transaction a s fixedfiles w = (Val tt, w') →
  fs w' !! i = Some (String.concat "" (GetItemsFor s i))
  ∧ fs w' !! (i +:+ ".bak") = Some (String.concat "" (GetItemsFor s i)).
Proof.
  intros Hnb Hitems Hall. rewrite fix_transaction_items, Hitems.
  rewrite rewrite_files_app. unfold bind at 1.
  destruct (rewrite_files a s l1 w) as [[[]|e] w1]; [|done].
  change (i :: l2 ++ i :: l3) with ([i] ++ l2 ++ [i] ++ l3).
  rewrite rewrite_files_app. unfold bind at 1.
  destruct (rewrite_files a s [i] w1) as [[[]|e] w2] eqn:E2; [|done].
  rewrite rewrite_files_app. unfold bind at 1.
  destruct (rewrite_files a s l2 w2) as [[[]|e] w3] eqn:E3; [|done].
  rewrite rewrite_files_app. unfold bind at 1.
  destruct (rewrite_files a s [i] w3) as [[[]|e] w4] eqn:E4; [|done].
  intros E5.
  apply Forall_app in Hall as [Hall2 Hall3].
  apply Forall_cons in Hall3 as [_ Hall3].
  assert (∀ u u', rewrite_files a s [i] u = (Val tt, u') →
                  rewrite_file a s i u = (Val tt, u')) as Hone.
  { intros u u'. simpl. unfold bind.
    destruct (rewrite_file a s i u) as [[[]|e] u1]; [|done]. by intros [= <-]. }
  apply Hone in E2. apply Hone in E4.
  destruct (rewrite_file_same s i w1 w2 Hnb E2) as [Hi2 _].
  pose proof (rewrite_files_keep_one s i l2 w2 w3 Hnb Hall2 Hi2 E3) as Hi3.
  destruct (rewrite_file_same s i w3 w4 Hnb E4) as [Hi4 Hb4].
  by apply (rewrite_files_keep_both s i l3 w4 w' Hnb Hall3 Hi4 (Hb4 _ Hi3)).
Qed.

End extras.

(** *** The theorems at the small instance *)

Lemma without_fix_nothing_is_written_witness :
  fs (collect (H := demo) (demo_args false true Grouping.recipe_and_append) demo_world).2
  = fs demo_world
  ∧ ∃ evs,
      log (collect (H := demo) (demo_args false true Grouping.recipe_and_append)
             demo_world).2
      = log demo_world ++ evs
      ∧ (∀ ids f, CallFix ids f ∉ evs)
      ∧ (∀ src dst, Rename src dst ∉ evs)
      ∧ (∀ path content, WriteFile path content ∉ evs).
Proof.
  apply (without_fix_nothing_is_written (H := demo)
           (demo_args false true Grouping.recipe_and_append) demo_world).
  reflexivity.
Defined.

Lemma quiet_run_prints_nothing_witness :
  ∃ evs,
    log (try_body (H := demo) (demo_args true true Grouping.recipe_and_append)
           demo_world).2
    = log demo_world ++ evs
    ∧ ∀ line, Print line ∉ evs.
Proof.
  apply (quiet_run_prints_nothing (H := demo)
           (demo_args true true Grouping.recipe_and_append) demo_world).
  reflexivity.
Defined.

Lemma handled_run_reports_nothing_witness :
  ∃ w', main (H := demo) (demo_args false false ["d/a_1.0.bb"; "d/a(.bbappend"]) demo_world
        = (Returned, w')
        ∧ ∃ evs, log w' = log demo_world ++ evs ∧ ∀ text, WriteStderr text ∉ evs.
Proof.
  let r := eval vm_compute in
    (main (H := demo) (demo_args false false ["d/a_1.0.bb"; "d/a(.bbappend"]) demo_world) in
  lazymatch r with
  | (Returned, ?w') =>
      exists w'; split;
      [ vm_compute; reflexivity
      | apply (handled_run_reports_nothing (H := demo)
                 (demo_args false false ["d/a_1.0.bb"; "d/a(.bbappend"]) demo_world w');
        vm_compute; reflexivity ]
  end.
Defined.

Lemma ingest_offers_every_file_witness :
  ∃ w', ingest (H := demo) (demo_args false false []) ["d/a_1.0.bb"; "d/b_2.0.bb"] []
          demo_world
        = (Val ["d/a_1.0.bb"], w')
        ∧ fs w' = fs demo_world
        ∧ ∃ evs, log w' = log demo_world ++ evs
                 ∧ added evs = ["d/a_1.0.bb"; "d/b_2.0.bb"].
Proof.
  let r := eval vm_compute in
    (ingest (H := demo) (demo_args false false []) ["d/a_1.0.bb"; "d/b_2.0.bb"] []
       demo_world) in
  lazymatch r with
  | (Val ?s', ?w') =>
      exists w'; split;
      [ vm_compute; reflexivity
      | apply (ingest_offers_every_file (H := demo) (demo_args false false [])
                 ["d/a_1.0.bb"; "d/b_2.0.bb"] [] demo_world s' w');
        vm_compute; reflexivity ]
  end.
Defined.

Lemma second_rewrite_overwrites_backup_witness :
  fs demo_world !! "d/a_1.0.bb" = Some ("A = 1" +:+ nl)
  ∧ ∃ w', fix_transaction (H := demo) (demo_args true true [])
            ["d/a_1.0.bb"; "d/a_1.0.bbappend"] ["d/a_1.0.bb"; "d/a_1.0.bbappend"]
            demo_world
          = (Val tt, w')
          ∧ fs w' !! "d/a_1.0.bb" = Some ("# d/a_1.0.bb" +:+ nl)
          ∧ fs w' !! "d/a_1.0.bb.bak" = Some ("# d/a_1.0.bb" +:+ nl).
Proof.
  split; [vm_compute; reflexivity|].
  let r := eval vm_compute in
    (fix_transaction (H := demo) (demo_args true true [])
       ["d/a_1.0.bb"; "d/a_1.0.bbappend"] ["d/a_1.0.bb"; "d/a_1.0.bbappend"]
       demo_world) in
  lazymatch r with
  | (Val tt, ?w') =>
      exists w'; split;
      [ vm_compute; reflexivity
      | apply (second_rewrite_overwrites_backup (H := demo) (demo_args true true [])
                 ["d/a_1.0.bb"; "d/a_1.0.bbappend"] ["d/a_1.0.bb"; "d/a_1.0.bbappend"]
                 "d/a_1.0.bb" [] ["d/a_1.0.bbappend"; "d/a_1.0.bbappend"] []
                 demo_world w') ]
  end.
  - reflexivity.
  - vm_compute. reflexivity.
  - simpl. repeat (apply Forall_cons_2; [split; by_evaluation|]). apply Forall_nil_2.
  - vm_compute. reflexivity.
Defined.

Lemma fixed_files_are_rewritten_in_later_groups_witness :
  ∃ acc' w',
    process_group (H := demo) (demo_args true true []) [demo_rule] ["d/a_1.0.bb"]
      ([], ["d/a_1.0.bbappend"]) demo_world
    = (Val acc', w')
    ∧ ∃ s evs, log w' = log demo_world ++ evs
               ∧ ∀ x, x ∈ ["d/a_1.0.bbappend"] →
                   x ∈ acc'.2
                   ∧ ∃ pre post,
                       evs = pre ++ rewrite_events (H := demo) (demo_args true true []) s x
                                 ++ post.
Proof.
  let r := eval vm_compute in
    (process_group (H := demo) (demo_args true true []) [demo_rule] ["d/a_1.0.bb"]
       ([], ["d/a_1.0.bbappend"]) demo_world) in
  lazymatch r with
  | (Val ?acc', ?w') =>
      exists acc', w'; split;
      [ vm_compute; reflexivity
      | apply (fixed_files_are_rewritten_in_later_groups (H := demo)
                 (demo_args true true []) [demo_rule] ["d/a_1.0.bb"]
                 ([], ["d/a_1.0.bbappend"]) acc' demo_world w');
        vm_compute; reflexivity ]
  end.
Defined.

Lemma findings_are_only_added_witness :
  ∃ acc' w',
    process_groups (H := demo) (demo_args true true []) [demo_rule]
      [["d/a_1.0.bb"; "d/a_1.0.bbappend"]]
      ([(7, "earlier finding")], ["d/a_1.0.bbappend"]) demo_world
    = (Val acc', w')
    ∧ [(7, "earlier finding")] `prefix_of` acc'.1
    ∧ ∀ x, x ∈ ["d/a_1.0.bbappend"] → x ∈ acc'.2.
Proof.
  let r := eval vm_compute in
    (process_groups (H := demo) (demo_args true true []) [demo_rule]
       [["d/a_1.0.bb"; "d/a_1.0.bbappend"]]
       ([(7, "earlier finding")], ["d/a_1.0.bbappend"]) demo_world) in
  lazymatch r with
  | (Val ?acc', ?w') =>
      exists acc', w'; split;
      [ vm_compute; reflexivity
      | apply (findings_are_only_added (H := demo)
                 (demo_args true true []) [demo_rule]
                 [["d/a_1.0.bb"; "d/a_1.0.bbappend"]]
                 ([(7, "earlier finding")], ["d/a_1.0.bbappend"]) acc' demo_world w');
        vm_compute; reflexivity ]
  end.
Defined.

End RunsFacts.
